(** * firepit.query: composable SQL query builder

    A shallow embedding of [firepit/query.py] (clause classes, [Query.append]
    and [Query.render]) together with the properties stated about it.

    Python strings are modelled as [string] (sequences of ASCII characters),
    Python lists and tuples as [list], [None]-able attributes as [option],
    exceptions as the [Raise] branch of [result].  The two validators imported
    from [firepit.validate] are parameters of the development. *)

From Stdlib Require Import String Ascii List ZArith Bool Arith Lia DecimalString.
From Stdlib Require Import SpecFloat.
Import ListNotations.
Open Scope string_scope.

(* ------------------------------------------------------------------ *)
(** ** Python string operations used by the module *)

Module PyStr.

(** The double-quote character and [f'"{s}"'] *)
Definition dq : string :=
  String (Ascii false true false false false true false false) EmptyString.
Definition quoted (s : string) : string := dq ++ s ++ dq.

(** [s.startswith(pre)] *)
Definition startswith (s pre : string) : bool := String.prefix pre s.

(** [s[n:]] *)
Fixpoint drop (n : nat) (s : string) : string :=
  match n, s with
  | O, _ => s
  | S _, EmptyString => EmptyString
  | S k, String _ s' => drop k s'
  end.

(** [s[:n]] for [0 <= n] *)
Fixpoint take (n : nat) (s : string) : string :=
  match n, s with
  | O, _ => EmptyString
  | S _, EmptyString => EmptyString
  | S k, String a s' => String a (take k s')
  end.

(** [s.endswith(suf)] *)
Definition endswith (s suf : string) : bool :=
  (String.length suf <=? String.length s)%nat
  && String.eqb (drop (String.length s - String.length suf) s) suf.

(** [s[:-n]] for [0 < n] *)
Definition chop (n : nat) (s : string) : string :=
  take (String.length s - n) s.

Definition upper_ascii (a : ascii) : ascii :=
  let n := nat_of_ascii a in
  if ((97 <=? n) && (n <=? 122))%nat then ascii_of_nat (n - 32) else a.

Definition lower_ascii (a : ascii) : ascii :=
  let n := nat_of_ascii a in
  if ((65 <=? n) && (n <=? 90))%nat then ascii_of_nat (n + 32) else a.

Fixpoint smap (f : ascii -> ascii) (s : string) : string :=
  match s with
  | EmptyString => EmptyString
  | String a s' => String (f a) (smap f s')
  end.

(** [s.upper()] and [s.lower()] *)
Definition upper : string -> string := smap upper_ascii.
Definition lower : string -> string := smap lower_ascii.

(** [sep.join(l)] *)
Fixpoint join (sep : string) (l : list string) : string :=
  match l with
  | [] => EmptyString
  | [x] => x
  | x :: rest => x ++ sep ++ join sep rest
  end.

(** [x in l] for a list of strings *)
Definition mem (x : string) (l : list string) : bool :=
  existsb (String.eqb x) l.

(** [str(n)] for an integer *)
Definition of_Z (z : Z) : string := NilZero.string_of_int (Z.to_int z).

(** [re.sub('^' + pat, repl, s)] for a literal [pat]: the anchored pattern
    matches at most once, at the start of [s]. *)
Definition sub_prefix (pat repl s : string) : string :=
  if startswith s pat then repl ++ drop (String.length pat) s else s.

(** [s.count(sub)]: non-overlapping occurrences, scanned left to right.
    [skip] is the number of characters still covered by the last match. *)
Fixpoint count_from (sub : string) (skip : nat) (s : string) : nat :=
  match s with
  | EmptyString => 0
  | String _ s' =>
      match skip with
      | S k => count_from sub k s'
      | O => if String.prefix sub s
             then S (count_from sub (String.length sub - 1) s')
             else count_from sub 0 s'
      end
  end.

Definition count (s sub : string) : nat :=
  match sub with
  | EmptyString => S (String.length s)
  | _ => count_from sub 0 s
  end.

(** [sub in s] *)
Fixpoint contains (s sub : string) : bool :=
  String.prefix sub s ||
  match s with
  | EmptyString => false
  | String _ s' => contains s' sub
  end.

(** [c in s] for a single character *)
Fixpoint has_char (c : ascii) (s : string) : bool :=
  match s with
  | EmptyString => false
  | String a s' => Ascii.eqb a c || has_char c s'
  end.

End PyStr.
Import PyStr.

(* ------------------------------------------------------------------ *)
(** ** Exceptions and results *)

Inductive exn : Type :=
| InvalidComparisonOperator (op : string)
| InvalidPredicateOperator (op : string)
| InvalidJoinOperator (how : string)
| InvalidAggregateFunction (func : string)
| InvalidQuery (msg : string)
| InvalidName (s : string)      (* raised by [validate_name] *)
| InvalidPath (s : string)      (* raised by [validate_path] *)
| TypeError
| AttributeError.

Inductive result (A : Type) : Type :=
| Ok (a : A)
| Raise (e : exn).
Arguments Ok {A} a.
Arguments Raise {A} e.

Definition rbind {A B} (r : result A) (k : A -> result B) : result B :=
  match r with
  | Ok a => k a
  | Raise e => Raise e
  end.

Notation "x <- c ;; k" := (rbind c (fun x => k))
  (at level 61, c at next level, right associativity).
Notation "' pat <- c ;; k" := (rbind c (fun x => match x with pat => k end))
  (at level 61, pat pattern, c at next level, right associativity).

(** [for x in l: f(x)] where [f] may raise *)
Fixpoint rmap {A B} (f : A -> result B) (l : list A) : result (list B) :=
  match l with
  | [] => Ok []
  | x :: rest => y <- f x ;; ys <- rmap f rest ;; Ok (y :: ys)
  end.

Fixpoint riter {A} (f : A -> result unit) (l : list A) : result unit :=
  match l with
  | [] => Ok tt
  | x :: rest => _ <- f x ;; riter f rest
  end.

(* ------------------------------------------------------------------ *)
(** ** Module constants *)

Definition COMP_OPS : list string :=
  ["="; "<>"; "!="; "<"; ">"; "<="; ">="; "LIKE"; "IN"; "IS"; "IS NOT"].
Definition PRED_OPS : list string := ["AND"; "OR"].
Definition JOIN_TYPES : list string := ["INNER"; "OUTER"; "LEFT OUTER"; "CROSS"].
Definition AGG_FUNCS : list string :=
  ["COUNT"; "SUM"; "MIN"; "MAX"; "AVG"; "NUNIQUE"].

(** Truthiness of an optional string attribute ([if self.table:]). *)
Definition truthy (o : option string) : bool :=
  match o with
  | Some s => negb (String.eqb s EmptyString)
  | None => false
  end.

(** [f'{x}'] for an attribute that may be [None]. *)
Definition fmt (o : option string) : string :=
  match o with
  | Some s => s
  | None => "None"
  end.

(** [a == b] on attributes holding a string or [None]. *)
Definition opt_eqb (a b : option string) : bool :=
  match a, b with
  | Some x, Some y => String.eqb x y
  | None, None => true
  | _, _ => false
  end.

(* ------------------------------------------------------------------ *)
(** ** Clause classes *)

(** [Column].  [col_id] is the identity of the Python object: the class
    defines no [__eq__], so [==] between two Columns compares identities. *)
Record Column : Type := mkColumn {
  col_id : nat;
  col_name : string;
  col_table : option string;
  col_alias : option string
}.

(** [CoalescedColumn]: first non-null column from a list.  [coal_id] is the
    identity of the object, as for [Column]. *)
Record CoalescedColumn : Type := mkCoalescedColumn {
  coal_id : nat;
  coal_names : list string;
  coal_alias : string
}.

(** A column specifier: a plain string, a [Column] or a [CoalescedColumn]
    object. *)
Inductive colspec : Type :=
| CStr (s : string)
| CCol (c : Column)
| CCoal (c : CoalescedColumn).

(** Values a caller may hand over as the right-hand side of a predicate;
    [PSeq] stands for a list or a tuple, [PFloat] holds a float as the
    IEEE 754 value it is, and [PBool] is [True] or [False]. *)
#[warnings="-register-all"]
Inductive pyval : Type :=
| PNone
| PStr (s : string)
| PInt (z : Z)
| PSeq (l : list pyval)
| PCol (c : Column)
| PFloat (x : spec_float)
| PBool (b : bool).

Record Predicate : Type := mkPredicate {
  p_lhs : colspec;
  p_op : string;
  p_rhs : pyval;
  p_values : list pyval
}.

Record Filter : Type := mkFilter {
  f_preds : list Predicate;
  f_op : string;
  f_values : list pyval
}.

Record Aggregation : Type := mkAggregation {
  a_aggs : list (string * option colspec * option string);
  a_group_cols : list colspec
}.

Record Join : Type := mkJoin {
  j_prev_name : option string;
  j_name : string;
  j_left_col : option colspec;
  j_op : option string;
  j_right_col : option colspec;
  j_how : string;
  j_alias : option string;
  j_values : list pyval;
  j_preds : option (list Predicate)
}.

(** The closed family of stage classes handled by [Query]. *)
Inductive Stage : Type :=
| STable (name : string)
| SProjection (cols : list colspec)
| SFilter (f : Filter)
| SGroup (cols : list colspec)
| SAggregation (a : Aggregation)
| SOrder (cols : list (string * string))
| SLimit (num : Z)
| SOffset (num : Z)
| SCount
| SUnique
| SJoin (j : Join)
| SCountUnique (cols : option (list colspec)).

Definition is_Projection (s : Stage) : bool :=
  match s with SProjection _ => true | _ => false end.
Definition is_Table (s : Stage) : bool :=
  match s with STable _ => true | _ => false end.

(** [_quote] on a string: the wildcard stays bare. *)
Definition quote_name (s : string) : string :=
  if String.eqb s "*" then s else quoted s.

(** [Column.__str__] *)
Definition Column_str (c : Column) : string :=
  let result :=
    if truthy (col_table c)
    then quoted (fmt (col_table c)) ++ "." ++ quote_name (col_name c)
    else quote_name (col_name c) in
  if truthy (col_alias c)
  then result ++ " AS " ++ quoted (fmt (col_alias c))
  else result.

(** [CoalescedColumn.__str__] *)
Definition CoalescedColumn_str (c : CoalescedColumn) : string :=
  "COALESCE(" ++ join ", " (coal_names c) ++ ") AS " ++ quoted (coal_alias c).

(** [_quote]: double-quote an SQL identifier if necessary *)
Definition _quote (obj : colspec) : string :=
  match obj with
  | CStr s => quote_name s
  | CCol c => Column_str c
  | CCoal c => CoalescedColumn_str c
  end.

(** [f'{col}'] *)
Definition colspec_str (obj : colspec) : string :=
  match obj with
  | CStr s => s
  | CCol c => Column_str c
  | CCoal c => CoalescedColumn_str c
  end.

(** [if col:] for an optional column specifier *)
Definition truthy_col (o : option colspec) : bool :=
  match o with
  | Some (CStr s) => negb (String.eqb s EmptyString)
  | Some (CCol _) => true
  | Some (CCoal _) => true
  | None => false
  end.

Definition fmt_col (o : option colspec) : string :=
  match o with
  | Some c => colspec_str c
  | None => "None"
  end.

(** [a == b] on column specifiers *)
Definition colspec_eqb (a b : colspec) : bool :=
  match a, b with
  | CStr x, CStr y => String.eqb x y
  | CCol x, CCol y => Nat.eqb (col_id x) (col_id y)
  | CCoal x, CCoal y => Nat.eqb (coal_id x) (coal_id y)
  | _, _ => false
  end.

Definition opt_col_eqb (a b : option colspec) : bool :=
  match a, b with
  | Some x, Some y => colspec_eqb x y
  | None, None => true
  | _, _ => false
  end.

(** [self.rhs in ['null', 'NULL']] *)
Definition is_null_str (v : pyval) : bool :=
  match v with
  | PStr s => String.eqb s "null" || String.eqb s "NULL"
  | _ => false
  end.

(* ------------------------------------------------------------------ *)
(** ** Query *)

Record Query : Type := mkQuery {
  stages : list Stage;
  tables : list string          (* treated like a stack *)
}.

(** Methods of [Query] read and write the object: a computation takes the
    object's state and returns its outcome with the state it leaves. *)
Definition M (A : Type) : Type := Query -> result A * Query.

Definition ret {A} (a : A) : M A := fun q => (Ok a, q).
Definition raise {A} (e : exn) : M A := fun q => (Raise e, q).
Definition bind {A B} (m : M A) (k : A -> M B) : M B :=
  fun q => match m q with
           | (Ok a, q') => k a q'
           | (Raise e, q') => (Raise e, q')
           end.
Definition lift {A} (r : result A) : M A := fun q => (r, q).
Definition get_stages : M (list Stage) := fun q => (Ok (stages q), q).
Definition get_tables : M (list string) := fun q => (Ok (tables q), q).
Definition put_stages (l : list Stage) : M unit :=
  fun q => (Ok tt, mkQuery l (tables q)).
Definition put_tables (l : list string) : M unit :=
  fun q => (Ok tt, mkQuery (stages q) l).

Notation "x <~ c ;; k" := (bind c (fun x => k))
  (at level 61, c at next level, right associativity).
Notation "' pat <~ c ;; k" := (bind c (fun x => match x with pat => k end))
  (at level 61, pat pattern, c at next level, right associativity).

(** [self.stages[-1] if self.stages else None] *)
Definition last_stage : M (option Stage) :=
  l <~ get_stages ;; ret (last (map Some l) None).

(** [self.stages.pop(-1)] on a non-empty list *)
Definition pop_stage : M unit :=
  l <~ get_stages ;; put_stages (removelast l).

(** [self.stages.append(stage)] *)
Definition push_stage (stage : Stage) : M unit :=
  l <~ get_stages ;; put_stages (l ++ [stage])%list.

(** [self.tables.append(name)] *)
Definition push_table (name : string) : M unit :=
  l <~ get_tables ;; put_tables (l ++ [name])%list.

(** The validators of [firepit.validate], which is not part of this module:
    each either accepts its argument ([true]) or raises. *)
Class Validate : Type := {
  validate_name : string -> bool;
  validate_path : string -> bool
}.

Section Clauses.

Context {V : Validate}.

Definition check_name (s : string) : result unit :=
  if validate_name s then Ok tt else Raise (InvalidName s).
Definition check_path (s : string) : result unit :=
  if validate_path s then Ok tt else Raise (InvalidPath s).

Definition _validate_column_name (name : string) : result unit :=
  if negb (String.eqb name "*") then check_path name else Ok tt.

Definition _validate_column (col : colspec) : result unit :=
  match col with
  | CStr s => _validate_column_name s
  | CCol c =>
      _ <- _validate_column_name (col_name c) ;;
      _ <- (if truthy (col_table c) then check_name (fmt (col_table c)) else Ok tt) ;;
      if truthy (col_alias c) then check_path (fmt (col_alias c)) else Ok tt
  | CCoal _ => Ok tt
  end.

Definition Column_init (id : nat) (name : string) (table alias : option string)
  : result Column :=
  _ <- _validate_column_name name ;;
  _ <- (if truthy table then check_name (fmt table) else Ok tt) ;;
  _ <- (if truthy alias then check_path (fmt alias) else Ok tt) ;;
  Ok (mkColumn id name table alias).

Definition CoalescedColumn_init (id : nat) (names : list string) (alias : string)
  : result CoalescedColumn :=
  _ <- riter _validate_column_name names ;;
  _ <- check_path alias ;;
  Ok (mkCoalescedColumn id names alias).

(** [lhs.endswith(s)] on a string or on a [Column] (which forwards to its
    text form); a [CoalescedColumn] has no such method. *)
Definition lhs_endswith (lhs : colspec) (s : string) : result bool :=
  match lhs with
  | CCoal _ => Raise AttributeError
  | _ => Ok (endswith (colspec_str lhs) s)
  end.

(** [Predicate.__init__], the branch for a STIX list property: the marker
    is cut off and a non-null value becomes a substring match. *)
Definition Predicate_list_property (lhs : colspec) (op : string) (rhs : pyval)
  : result (colspec * string * pyval) :=
  marked <- lhs_endswith lhs "[*]" ;;
  if marked then
    match lhs with
    | CCol _ | CCoal _ => Raise TypeError  (* lhs[:-3] on a Column *)
    | CStr l =>
        let lhs := CStr (chop 3 l) in
        match rhs with
        | PStr r =>
            if negb (String.eqb (lower r) "null") then
              (* wrap with SQL wildcards since list is encoded as string *)
              let rhs := PStr ("%" ++ r ++ "%") in
              if String.eqb op "=" then Ok (lhs, "LIKE", rhs)
              else if String.eqb op "!=" then Ok (lhs, "NOT LIKE", rhs)
              else Ok (lhs, op, rhs)
            else Ok (lhs, op, rhs)
        | _ => Raise AttributeError        (* rhs.lower() *)
        end
    end
  else Ok (lhs, op, rhs).

(** [Predicate.__init__], the assignments of [self.lhs], [self.op],
    [self.rhs] and [self.values]. *)
Definition Predicate_store (lhs : colspec) (op : string) (rhs : pyval)
  : result Predicate :=
  if is_null_str rhs then
    if negb (mem op ["="; "!="; "<>"; "IS"; "IS NOT"])
    then Raise (InvalidComparisonOperator op)
    else Ok (mkPredicate lhs op rhs [])
  else
    match rhs with
    | PSeq l => Ok (mkPredicate lhs op rhs l)
    | PCol _ => Ok (mkPredicate lhs op rhs [])
    | _ => Ok (mkPredicate lhs op rhs [rhs])
    end.

(** [Predicate.__init__] *)
Definition Predicate_init (lhs : colspec) (op : string) (rhs : pyval)
  : result Predicate :=
  if negb (mem op COMP_OPS) then Raise (InvalidComparisonOperator op) else
  let rhs := match rhs with PNone => PStr "NULL" | _ => rhs end in
  '(lhs, op, rhs) <- Predicate_list_property lhs op rhs ;;
  _ <- (match lhs with CStr l => check_path l | _ => Ok tt end) ;;
  Predicate_store lhs op rhs.

(** [len(self.rhs)] *)
Definition py_len (v : pyval) : result nat :=
  match v with
  | PStr s => Ok (String.length s)
  | PSeq l => Ok (List.length l)
  | _ => Raise TypeError
  end.

(** [Predicate.render] *)
Definition Predicate_render (placeholder : string) (self : Predicate)
  : result string :=
  if is_null_str (p_rhs self) then
    if mem (p_op self) ["!="; "<>"] then
      Ok ("(" ++ _quote (p_lhs self) ++ " IS NOT NULL)")
    else if String.eqb (p_op self) "=" then
      Ok ("(" ++ _quote (p_lhs self) ++ " IS NULL)")
    else Raise (InvalidComparisonOperator (p_op self))
  else
    match p_rhs self with
    | PCol c =>
        Ok ("(" ++ _quote (p_lhs self) ++ " " ++ p_op self ++ " "
                ++ Column_str c ++ ")")
    | rhs =>
        if String.eqb (p_op self) "IN" then
          n <- py_len rhs ;;
          let phs := join ", " (repeat placeholder n) in
          Ok ("(" ++ _quote (p_lhs self) ++ " " ++ p_op self ++ " ("
                  ++ phs ++ "))")
        else
          Ok ("(" ++ _quote (p_lhs self) ++ " " ++ p_op self ++ " "
                  ++ placeholder ++ ")")
    end.

(** [Filter] *)
Definition Filter_OR : string := " OR ".
Definition Filter_AND : string := " AND ".

Definition Filter_init (preds : list Predicate) (op : string) : Filter :=
  mkFilter preds op (flat_map p_values preds).

Definition Filter_render (placeholder : string) (self : Filter)
  : result string :=
  pred_list <- rmap (Predicate_render placeholder) (f_preds self) ;;
  let result := join (f_op self) pred_list in
  if String.eqb (f_op self) Filter_OR then Ok ("(" ++ result ++ ")")
  else Ok result.

(** [Order]: an entry is a [(path, direction)] tuple or a bare path. *)
Inductive order_arg : Type :=
| OTuple (col dir : string)
| OStr (col : string).

Definition Order_ASC : string := "ASC".
Definition Order_DESC : string := "DESC".

Fixpoint Order_cols (cols : list order_arg) : result (list (string * string)) :=
  match cols with
  | [] => Ok []
  | OTuple c d :: rest =>
      _ <- check_path c ;; r <- Order_cols rest ;; Ok ((c, d) :: r)
  | OStr c :: rest =>
      _ <- check_path c ;; r <- Order_cols rest ;; Ok ((c, Order_ASC) :: r)
  end.

Definition Order_init (cols : list order_arg) : result Stage :=
  r <- Order_cols cols ;; Ok (SOrder r).

Definition Order_render (cols : list (string * string)) : string :=
  join ", " (map (fun col => quoted (fst col) ++ " " ++ snd col) cols).

(** [Projection] *)
Definition Projection_init (cols : list colspec) : result Stage :=
  _ <- riter _validate_column cols ;; Ok (SProjection cols).

Definition Projection_render (cols : list colspec) : string :=
  join ", " (map _quote cols).

(** [Table] *)
Definition Table_init (name : string) : result Stage :=
  _ <- check_name name ;; Ok (STable name).

(** [Group] *)
Definition Group_init (cols : list colspec) : result Stage :=
  _ <- riter _validate_column cols ;; Ok (SGroup cols).

Definition Group_render (cols : list colspec) : string :=
  let cols := map (fun col =>
    match col with
    | CCol c =>                               (* Again, nasty hacks *)
        if truthy (col_table c)
        then CStr (fmt (col_table c) ++ dq ++ "." ++ dq ++ col_name c)
        else CStr (col_name c)
    | _ => col
    end) cols in
  join ", " (map _quote cols).

(** [Aggregation]: an entry of the constructor's list is a 3-tuple, a 2-tuple
    or something that is not a tuple. *)
Inductive agg_arg : Type :=
| Agg3 (func : string) (col : option colspec) (alias : option string)
| Agg2 (func : string) (col : option colspec)
| AggOther.

Definition is_star (col : option colspec) : bool :=
  match col with
  | Some (CStr s) => String.eqb s "*"
  | _ => false
  end.

Fixpoint Aggregation_aggs (aggs : list agg_arg)
  : result (list (string * option colspec * option string)) :=
  match aggs with
  | [] => Ok []
  | AggOther :: _ => Raise TypeError
  | agg :: rest =>
      let '(func, col, alias) :=
        match agg with
        | Agg3 f c a => (f, c, a)
        | Agg2 f c => (f, c, None)
        | AggOther => (EmptyString, None, None)
        end in
      if negb (mem (upper func) AGG_FUNCS) then Raise (InvalidAggregateFunction func)
      else
        _ <- (match col with
              | Some c => if is_star col then Ok tt else _validate_column c
              | None => Ok tt
              end) ;;
        r <- Aggregation_aggs rest ;;
        Ok ((func, col, alias) :: r)
  end.

Definition Aggregation_init (aggs : list agg_arg) : result Aggregation :=
  r <- Aggregation_aggs aggs ;; Ok (mkAggregation r []).

Definition Aggregation_expr (agg : string * option colspec * option string)
  : string :=
  let '(func, col, alias) := agg in
  let '(func, mod_) :=
    if String.eqb (upper func) "NUNIQUE" then ("COUNT", "DISTINCT ")
    else (func, EmptyString) in
  let col := if truthy_col col then col else Some (CStr "*") in
  let expr :=
    if is_star col then func ++ "(" ++ mod_ ++ fmt_col col ++ ")"
    else func ++ "(" ++ mod_ ++ quoted (fmt_col col) ++ ")" in
  let alias := if truthy alias then fmt alias else lower func in
  expr ++ " AS " ++ quoted alias.

Definition Aggregation_render (self : Aggregation) : string :=
  join ", " (map _quote (a_group_cols self) ++ map Aggregation_expr (a_aggs self))%list.

(** [Offset] and [Limit] *)
Definition Offset_init (num : Z) : Stage := SOffset num.
Definition Limit_init (num : Z) : Stage := SLimit num.

(** [Count], [Unique] *)
Definition Count_render : string := "COUNT(*) AS " ++ quoted "count".
Definition Unique_render : string := "SELECT DISTINCT *".

(** [CountUnique] *)
Definition truthy_cols (cols : option (list colspec)) : bool :=
  match cols with
  | Some (_ :: _) => true
  | _ => false
  end.

Definition CountUnique_init (cols : option (list colspec)) : result Stage :=
  _ <- riter _validate_column (match cols with Some l => l | None => [] end) ;;
  Ok (SCountUnique cols).

Definition CountUnique_render (cols : option (list colspec)) : string :=
  match cols with
  | Some (c :: l) =>
      "COUNT(DISTINCT "
        ++ join ", " (map (fun col => quoted (colspec_str col)) (c :: l))
        ++ ") AS " ++ quoted "count"
  | _ => "COUNT(*) AS " ++ quoted "count"
  end.

(** [Join] *)
Definition Join_init (name : string)
    (left_col : option colspec) (op : option string) (right_col : option colspec)
    (preds : option (list Predicate))
    (how : string) (alias : option string) (lhs : option string)
  : result Join :=
  _ <- check_name name ;;
  _ <- (if truthy_col left_col && truthy op && truthy_col right_col then
          _ <- (match left_col with Some c => _validate_column c | None => Ok tt end) ;;
          match right_col with Some c => _validate_column c | None => Ok tt end
        else Ok tt) ;;
  _ <- (if truthy alias then check_name (fmt alias) else Ok tt) ;;
  _ <- (if truthy lhs then check_name name else Ok tt) ;;
  if negb (mem (upper how) JOIN_TYPES) then Raise (InvalidJoinOperator how)
  else
    let values := match preds with
                  | Some l => flat_map p_values l
                  | None => []
                  end in
    Ok (mkJoin lhs name left_col op right_col how alias values preds).

(** [Join.__eq__] *)
Definition Join_eq (self rhs : Join) : bool :=
  opt_eqb (j_prev_name self) (j_prev_name rhs) &&
  String.eqb (j_name self) (j_name rhs) &&
  opt_col_eqb (j_left_col self) (j_left_col rhs) &&
  opt_eqb (j_op self) (j_op rhs) &&
  opt_col_eqb (j_right_col self) (j_right_col rhs) &&
  String.eqb (j_how self) (j_how rhs) &&
  opt_eqb (j_alias self) (j_alias rhs).

Definition Join_render (placeholder : string) (self : Join) : result string :=
  let target := quoted (j_name self) in
  let table := target in
  let '(target, table) :=
    if truthy (j_alias self)
    then (target ++ " AS " ++ quoted (fmt (j_alias self)),
          quoted (fmt (j_alias self)))
    else (target, table) in
  cond <-
    (if truthy_col (j_left_col self) then
       Ok (quoted (fmt (j_prev_name self)) ++ "." ++ quoted (fmt_col (j_left_col self))
           ++ " " ++ fmt (j_op self) ++ " " ++ table ++ "."
           ++ quoted (fmt_col (j_right_col self)))
     else
       match j_preds self with
       | None => Raise TypeError            (* for pred in None *)
       | Some preds =>
           pred_list <- rmap (Predicate_render placeholder) preds ;;
           Ok (join " AND " pred_list)
       end) ;;
  Ok (upper (j_how self) ++ " JOIN " ++ target ++ " ON " ++ cond).

(** [stage.render(placeholder)], dispatched on the class of the stage *)
Definition Stage_render (placeholder : string) (stage : Stage) : result string :=
  match stage with
  | STable name => Ok name
  | SProjection cols => Ok (Projection_render cols)
  | SFilter f => Filter_render placeholder f
  | SGroup cols => Ok (Group_render cols)
  | SAggregation a => Ok (Aggregation_render a)
  | SOrder cols => Ok (Order_render cols)
  | SLimit num => Ok (of_Z num)
  | SOffset num => Ok (of_Z num)
  | SCount => Ok Count_render
  | SUnique => Ok Unique_render
  | SJoin j => Join_render placeholder j
  | SCountUnique cols => Ok (CountUnique_render cols)
  end.

(* ------------------------------------------------------------------ *)
(** ** Query methods *)

(** [Query.append] *)
Definition Query_append (stage : Stage) : M unit :=
  match stage with
  | SAggregation a =>
      (* If there's already a Projection, that's an error *)
      l <~ get_stages ;;
      if existsb is_Projection l
      then raise (InvalidQuery "cannot have Aggregation after Projection")
      else
        last <~ last_stage ;;
        match last with
        | Some (SGroup cols) =>        (* copy grouped columns *)
            push_stage (SAggregation (mkAggregation (a_aggs a) cols))
        | _ => push_stage stage
        end
  | SJoin j =>
      (* Need to look back and grab previous table name *)
      last <~ last_stage ;;
      let redundant :=
        match last with
        | Some (SJoin lastj) => Join_eq lastj j
        | _ => false
        end in
      if redundant then ret tt
      else
        let resolve (name : string) :=
          if negb (truthy (j_prev_name j))
          then mkJoin (Some name) (j_name j) (j_left_col j) (j_op j)
                      (j_right_col j) (j_how j) (j_alias j) (j_values j)
                      (j_preds j)
          else j in
        match last with
        | Some (STable name) => push_stage (SJoin (resolve name))
        | Some (SJoin lastj) => push_stage (SJoin (resolve (j_name lastj)))
        | _ => raise (InvalidQuery "Join must follow Table or Join")
        end
  | SCount =>
      (* See if we can combine with previous stages *)
      last <~ last_stage ;;
      match last with
      | Some SUnique =>
          _ <~ pop_stage ;;
          last <~ last_stage ;;
          cols <~ match last with
                  | Some (SProjection pcols) =>
                      _ <~ pop_stage ;; ret (Some pcols)
                  | _ => ret None
                  end ;;
          stage <~ lift (CountUnique_init cols) ;;
          push_stage stage
      | _ => push_stage stage
      end
  | SCountUnique _ =>
      last <~ last_stage ;;
      match last with
      | Some (SProjection pcols) =>
          _ <~ pop_stage ;;
          push_stage (SCountUnique (Some pcols))
      | _ => push_stage stage
      end
  | STable name =>
      _ <~ push_table name ;;
      push_stage stage
  | _ => push_stage stage
  end.

(** [Query.extend] *)
Fixpoint Query_extend (l : list Stage) : M unit :=
  match l with
  | [] => ret tt
  | stage :: rest => _ <~ Query_append stage ;; Query_extend rest
  end.

(** [Query.__init__]: no argument, a table name, or a list of stages. *)
Inductive query_arg : Type :=
| QNone
| QName (name : string)
| QStages (l : list Stage).

Definition Query_init (arg : query_arg) : result Query :=
  let body : M unit :=
    match arg with
    | QNone => ret tt
    | QName name => t <~ lift (Table_init name) ;; Query_append t
    | QStages l => Query_extend l
    end in
  match body (mkQuery [] []) with
  | (Ok _, q) => Ok q
  | (Raise e, _) => Raise e
  end.

(** One iteration of the loop of [Query.render], after [text] has been
    obtained from the stage: the new [query] and [values]. *)
Definition render_step (stage : Stage) (prev : option Stage) (text : string)
    (query : string) (values : list pyval) : string * list pyval :=
  match stage with
  | STable _ => ("FROM " ++ quoted text, values)
  | SProjection _ => ("SELECT " ++ text ++ " " ++ query, values)
  | SFilter f =>
      let values := (values ++ f_values f)%list in
      let keyword :=
        match prev with
        | Some (SAggregation _) => "HAVING"
        | Some (SFilter _) => "AND"
        | _ => "WHERE"
        end in
      (query ++ " " ++ keyword ++ " " ++ text, values)
  | SGroup _ => (query ++ " GROUP BY " ++ text, values)
  | SAggregation _ => ("SELECT " ++ text ++ " " ++ query, values)
  | SOrder _ => (query ++ " ORDER BY " ++ text, values)
  | SLimit _ => (query ++ " LIMIT " ++ text, values)
  | SOffset _ => (query ++ " OFFSET " ++ text, values)
  | SCount =>
      match prev with
      | Some SUnique =>
          (* Should have already been combined *)
          ("SELECT " ++ text ++ " FROM (" ++ query ++ ") AS tmp", values)
      | _ => ("SELECT " ++ text ++ " " ++ query, values)
      end
  | SUnique =>
      if startswith query "SELECT "
      then (sub_prefix "SELECT " "SELECT DISTINCT " query, values)
      else ("SELECT DISTINCT * " ++ query, values)
  | SJoin j =>
      let values := (values ++ j_values j)%list in
      (query ++ " " ++ text, values)
  | SCountUnique cols =>
      if truthy_cols cols
      then ("SELECT " ++ text ++ " " ++ query, values)
      else ("SELECT " ++ text ++ " FROM (SELECT DISTINCT * " ++ query
                      ++ ") AS tmp", values)
  end.

(** The loop [for stage in self.stages] of [Query.render] with its local
    variables [query], [values] and [prev]. *)
Fixpoint render_loop (placeholder : string) (l : list Stage)
    (query : string) (values : list pyval) (prev : option Stage)
  : result (string * list pyval) :=
  match l with
  | [] => Ok (query, values)
  | stage :: rest =>
      text <- Stage_render placeholder stage ;;
      let '(query, values) := render_step stage prev text query values in
      render_loop placeholder rest query values (Some stage)
  end.

(** If there's no projection... *)
Definition render_finish (query : string) : string :=
  if negb (startswith query "SELECT") then "SELECT * " ++ query else query.

(** [Query.render] *)
Definition Query_render (placeholder : string) : M (string * list pyval) :=
  ts <~ get_tables ;;
  match ts with
  | [] => raise (InvalidQuery "no table")
  | _ =>
      l <~ get_stages ;;
      '(query, values) <~ lift (render_loop placeholder l EmptyString [] None) ;;
      ret (render_finish query, values)
  end.

End Clauses.

(* ------------------------------------------------------------------ *)
(** ** A reference validator *)

Module SpecValidate.

Definition is_letter (a : ascii) : bool :=
  let n := nat_of_ascii a in
  ((65 <=? n) && (n <=? 90) || (97 <=? n) && (n <=? 122))%nat.

Definition is_digit (a : ascii) : bool :=
  let n := nat_of_ascii a in ((48 <=? n) && (n <=? 57))%nat.

Definition ident_char (a : ascii) : bool :=
  is_letter a || is_digit a || Ascii.eqb a "_".

(** [segments true s]: [s] is a dot-separated sequence of non-empty runs of
    identifier characters; the flag tells that a run is being opened. *)
Fixpoint segments (fresh : bool) (s : string) : bool :=
  match s with
  | EmptyString => negb fresh
  | String a s' =>
      if Ascii.eqb a "." then negb fresh && segments true s'
      else ident_char a && segments false s'
  end.

Fixpoint all_ident (s : string) : bool :=
  match s with
  | EmptyString => true
  | String a s' => ident_char a && all_ident s'
  end.

(** Modelled from the spec: the identifier validator of [firepit.validate],
    which accepts a safe bare identifier (letters, digits, underscore). *)
Definition spec_validate_name (s : string) : bool :=
  negb (String.eqb s EmptyString) && all_ident s.

(** Modelled from the spec: the path validator of [firepit.validate], which
    accepts dot-separated identifier segments, optionally suffixed with the
    multi-valued marker. *)
Definition spec_validate_path (s : string) : bool :=
  segments true (if endswith s "[*]" then chop 3 s else s).

#[export] Instance spec_validate : Validate :=
  {| validate_name := spec_validate_name; validate_path := spec_validate_path |}.

End SpecValidate.

(* ------------------------------------------------------------------ *)
(** ** Example queries *)

Section Examples.

Context {V : Validate}.

(** Run a sequence of [append] calls on a freshly built [Query(name)]. *)
Definition build (name : string) (l : list (result Stage))
  : result (result unit * Query) :=
  q <- Query_init (QName name) ;;
  l' <- rmap (fun s => s) l ;;
  Ok (Query_extend l' q).

(** [Query("events")], [Projection(["type"])], [Group(["type"])] and the
    Aggregation of one entry: function COUNT, the wildcard column, alias n *)
Definition agg_count_n : result Stage :=
  a <- Aggregation_init [Agg3 "COUNT" (Some (CStr "*")) (Some "n")] ;;
  Ok (SAggregation a).

Definition events_projected_grouped : result (result unit * Query) :=
  build "events"
    [Projection_init [CStr "type"]; Group_init [CStr "type"]; agg_count_n].

Definition events_grouped : result (result unit * Query) :=
  build "events" [Group_init [CStr "type"]; agg_count_n].

(** [Unique()], [Projection(["a", "b"])], [Count()] and the same with the
    first two swapped *)
Definition unique_projection_count : list Stage :=
  [SUnique; SProjection [CStr "a"; CStr "b"]; SCount].

Definition projection_unique_count : list Stage :=
  [SProjection [CStr "a"; CStr "b"]; SUnique; SCount].

(** [Join("b", "id", "=", "id")], with and without an explicit [lhs] *)
Definition join_b (lhs : option string) : result Stage :=
  j <- Join_init "b" (Some (CStr "id")) (Some "=") (Some (CStr "id")) None
         "INNER" None lhs ;;
  Ok (SJoin j).

End Examples.

(** The Predicate [x = 1] and the Join to table b on equal ids, as stored. *)
Definition x_is_one : Predicate :=
  mkPredicate (CStr "x") "=" (PInt 1) [PInt 1].

(** [Query("people")] filtered by [age > 30 OR name IN ("a", "b")],
    projected on [name] and limited to five rows, as stored. *)
Definition people_query : Query :=
  mkQuery
    [STable "people";
     SFilter (Filter_init
                [mkPredicate (CStr "age") ">" (PInt 30) [PInt 30];
                 mkPredicate (CStr "name") "IN" (PSeq [PStr "a"; PStr "b"])
                             [PStr "a"; PStr "b"]]
                Filter_OR);
     SProjection [CStr "name"];
     SLimit 5]
    ["people"].

(** A text form of bound values: integers in decimal, strings between
    single quotes. *)
Definition show_value (v : pyval) : string :=
  match v with
  | PInt z => of_Z z
  | PStr s => "'" ++ s ++ "'"
  | _ => "NULL"
  end.

(** [Query("a")] filtered by [x = 1], with a second Table stage after the
    Filter. *)
Definition two_tables : Query :=
  mkQuery [STable "a"; SFilter (Filter_init [x_is_one] Filter_AND); STable "b"]
          ["a"; "b"].

Definition join_ab (lhs : option string) : Join :=
  mkJoin lhs "b" (Some (CStr "id")) (Some "=") (Some (CStr "id")) "INNER" None
         [] None.

(* ------------------------------------------------------------------ *)
(** ** Bound values of a stage sequence *)

(** The values a stage hands to [Query.render]: only [Filter] and [Join]
    do ([values += stage.values]). *)
Definition stage_values (s : Stage) : list pyval :=
  match s with
  | SFilter f => f_values f
  | SJoin j => j_values j
  | _ => []
  end.

Definition gathered (l : list Stage) : list pyval := flat_map stage_values l.

(** The value of [prev] after the loop has run over [l]. *)
Definition prev_after (l : list Stage) (prev : option Stage) : option Stage :=
  last (map Some l) prev.

(* ------------------------------------------------------------------ *)
(** ** Vocabulary of the statements *)

(** The path a predicate stores for a left-hand string: the multi-valued
    marker, if present, is cut off ([lhs[:-3]]). *)
Definition stripped (l : string) : string :=
  if endswith l "[*]" then chop 3 l else l.

(** The stages whose append rule can take earlier stages off the Query. *)
Definition folds (s : Stage) : bool :=
  match s with
  | SCount | SCountUnique _ => true
  | _ => false
  end.

(** The operators the constructor admits next to a null right-hand side. *)
Definition NULL_OPS : list string := ["="; "!="; "<>"; "IS"; "IS NOT"].

(** The operator a multi-valued path is matched with. *)
Definition like_op (op : string) : string :=
  if String.eqb op "=" then "LIKE"
  else if String.eqb op "!=" then "NOT LIKE"
  else op.

(** The right-hand value wrapped with SQL wildcards ([f"%{rhs}%"]). *)
Definition wildcard (r : string) : string := "%" ++ r ++ "%".

(* ------------------------------------------------------------------ *)
(** ** Placeholders and the values that fill them *)

(** [lacks c s]: the character [c] does not occur in [s]. *)
Definition lacks (c : ascii) (s : string) : bool := negb (has_char c s).

(** The characters of the fixed SQL text the renderers emit. *)
Definition sql_chars : string :=
  "SELECT DISTINCT * FROM WHERE HAVING AND GROUP BY ORDER LIMIT OFFSET "
  ++ "JOIN ON IS NOT NULL AS tmp (),." ++ dq.

(** [fill_from ph skip ts s]: the text [s] with the occurrences of the
    placeholder [ph], taken left to right as [str.count] finds them,
    replaced by the texts [ts] in order; [None] when there are more or fewer
    occurrences than texts. *)
Fixpoint fill_from (ph : string) (skip : nat) (ts : list string) (s : string)
  : option string :=
  match s with
  | EmptyString => match ts with [] => Some EmptyString | _ => None end
  | String a s' =>
      match skip with
      | S k => fill_from ph k ts s'
      | O =>
          if String.prefix ph s then
            match ts with
            | [] => None
            | t :: ts' =>
                option_map (append t)
                           (fill_from ph (String.length ph - 1) ts' s')
            end
          else option_map (String a) (fill_from ph 0 ts s')
      end
  end.

Definition fill (ph : string) (ts : list string) (s : string) : option string :=
  match ph with
  | EmptyString => None
  | _ => fill_from ph 0 ts s
  end.

(** The query text in which every predicate shows its own right-hand
    operand where [render] leaves a placeholder.  [show] is the text form of
    a value.  Predicates without a placeholder are rendered by
    [Predicate_render] itself. *)
Section Inline.

Variable show : pyval -> string.

Definition Predicate_inline (self : Predicate) : result string :=
  if is_null_str (p_rhs self) then Predicate_render EmptyString self
  else
    match p_rhs self with
    | PCol _ => Predicate_render EmptyString self
    | rhs =>
        if String.eqb (p_op self) "IN" then
          match rhs with
          | PSeq l =>
              Ok ("(" ++ _quote (p_lhs self) ++ " " ++ p_op self ++ " ("
                      ++ join ", " (map show l) ++ "))")
          | _ => Raise TypeError
          end
        else
          Ok ("(" ++ _quote (p_lhs self) ++ " " ++ p_op self ++ " "
                  ++ show rhs ++ ")")
    end.

Definition Filter_inline (self : Filter) : result string :=
  pred_list <- rmap Predicate_inline (f_preds self) ;;
  let result := join (f_op self) pred_list in
  if String.eqb (f_op self) Filter_OR then Ok ("(" ++ result ++ ")")
  else Ok result.

Definition Join_inline (self : Join) : result string :=
  if truthy_col (j_left_col self) then Join_render EmptyString self
  else
    let target := quoted (j_name self) in
    let target :=
      if truthy (j_alias self)
      then target ++ " AS " ++ quoted (fmt (j_alias self))
      else target in
    match j_preds self with
    | None => Raise TypeError
    | Some preds =>
        pred_list <- rmap Predicate_inline preds ;;
        Ok (upper (j_how self) ++ " JOIN " ++ target ++ " ON "
              ++ join " AND " pred_list)
    end.

Definition Stage_inline (stage : Stage) : result string :=
  match stage with
  | SFilter f => Filter_inline f
  | SJoin j => Join_inline j
  | _ => Stage_render EmptyString stage
  end.

Fixpoint inline_loop (l : list Stage)
    (query : string) (values : list pyval) (prev : option Stage)
  : result (string * list pyval) :=
  match l with
  | [] => Ok (query, values)
  | stage :: rest =>
      text <- Stage_inline stage ;;
      let '(query, values) := render_step stage prev text query values in
      inline_loop rest query values (Some stage)
  end.

Definition Query_inline (q : Query) : result string :=
  '(query, _) <- inline_loop (stages q) EmptyString [] None ;;
  Ok (render_finish query).

End Inline.

(** *** Queries whose placeholders and values can match *)

(** A predicate tests membership against a sequence, or compares with a
    scalar, a Column, or null under an operator [render] knows; [values]
    is what the constructor derives from the right-hand side. *)
Definition Predicate_wf (p : Predicate) : Prop :=
  if is_null_str (p_rhs p) then
    (mem (p_op p) ["!="; "<>"] = true \/ p_op p = "=") /\ p_values p = []
  else
    match p_rhs p with
    | PCol _ => p_values p = []
    | PSeq l => p_op p = "IN" /\ p_values p = l
    | v => String.eqb (p_op p) "IN" = false /\ p_values p = [v]
    end.

Definition Filter_wf (f : Filter) : Prop :=
  Forall Predicate_wf (f_preds f) /\
  f_values f = flat_map p_values (f_preds f).

(** A Join uses either its column condition, and then binds nothing, or its
    predicate list. *)
Definition Join_wf (j : Join) : Prop :=
  if truthy_col (j_left_col j) then j_values j = []
  else exists preds,
         j_preds j = Some preds /\ Forall Predicate_wf preds /\
         j_values j = flat_map p_values preds.

Definition Stage_wf (s : Stage) : Prop :=
  match s with
  | SFilter f => Filter_wf f
  | SJoin j => Join_wf j
  | _ => True
  end.

(** No bound value has been gathered when a Table stage is reached; [vs]
    are the values gathered so far. *)
Fixpoint tables_lead (vs : list pyval) (l : list Stage) : Prop :=
  match l with
  | [] => True
  | s :: rest =>
      match s with
      | STable _ => vs = [] /\ tables_lead vs rest
      | _ => tables_lead (vs ++ stage_values s) rest
      end
  end.

(** The character [c] occurs in none of the texts a clause renders around
    its placeholders. *)
Definition Predicate_fresh (c : ascii) (p : Predicate) : bool :=
  lacks c (_quote (p_lhs p)) && lacks c (p_op p) &&
  match p_rhs p with
  | PCol col => lacks c (Column_str col)
  | _ => true
  end.

Definition Filter_fresh (c : ascii) (f : Filter) : bool :=
  lacks c (f_op f) && forallb (Predicate_fresh c) (f_preds f).

Definition Join_fresh (c : ascii) (j : Join) : bool :=
  lacks c (upper (j_how j)) && lacks c (j_name j) &&
  (if truthy (j_alias j) then lacks c (fmt (j_alias j)) else true) &&
  if truthy_col (j_left_col j) then
    lacks c (fmt (j_prev_name j)) && lacks c (fmt_col (j_left_col j)) &&
    lacks c (fmt (j_op j)) && lacks c (fmt_col (j_right_col j))
  else
    match j_preds j with
    | Some preds => forallb (Predicate_fresh c) preds
    | None => true
    end.

Definition Stage_fresh (c : ascii) (s : Stage) : bool :=
  match s with
  | SFilter f => Filter_fresh c f
  | SJoin j => Join_fresh c j
  | _ => match Stage_render EmptyString s with
         | Ok text => lacks c text
         | Raise _ => true
         end
  end.

(** Every character of [lit] occurs in [big]. *)
Fixpoint all_in (lit big : string) : bool :=
  match lit with
  | EmptyString => true
  | String a lit' => has_char a big && all_in lit' big
  end.

(** [filled c ph ts s s']: [s] is made of characters other than [c] and of
    copies of the placeholder [ph]; [s'] is [s] with the copies replaced,
    left to right, by the texts [ts]. *)
Inductive filled (c : ascii) (ph : string)
  : list string -> string -> string -> Prop :=
| filled_nil : filled c ph [] EmptyString EmptyString
| filled_lit a ts s s' :
    a <> c -> filled c ph ts s s' ->
    filled c ph ts (String a s) (String a s')
| filled_ph t ts s s' :
    filled c ph ts s s' -> filled c ph (t :: ts) (ph ++ s) (t ++ s').

(** The shapes the text under construction can start with. *)
Definition head_ok (s : string) : bool :=
  String.eqb s EmptyString || String.prefix " " s
  || String.prefix "FROM " s || String.prefix "SELECT " s.

(* ------------------------------------------------------------------ *)
(** ** Vocabulary of the further statements *)

(** The names of the Table stages of a sequence, in order. *)
Definition table_names (l : list Stage) : list string :=
  flat_map (fun s => match s with STable name => [name] | _ => [] end) l.

(** The last stage is a Table or a Join. *)
Definition after_Table_or_Join (l : list Stage) : bool :=
  match last (map Some l) None with
  | Some (STable _) | Some (SJoin _) => true
  | _ => false
  end.

(** The last stage is a Projection. *)
Definition after_Projection (l : list Stage) : bool :=
  match last (map Some l) None with
  | Some (SProjection _) => true
  | _ => false
  end.

(** A Join with its [prev_name] attribute set. *)
Definition with_prev_name (j : Join) (lhs : option string) : Join :=
  mkJoin lhs (j_name j) (j_left_col j) (j_op j) (j_right_col j) (j_how j)
         (j_alias j) (j_values j) (j_preds j).

(** The pair [Order] stores for an entry of its argument. *)
Definition order_pair (a : order_arg) : string * string :=
  match a with
  | OTuple col dir => (col, dir)
  | OStr col => (col, Order_ASC)
  end.

(** A column specifier without its alias. *)
Definition drop_alias (col : colspec) : colspec :=
  match col with
  | CCol c => CCol (mkColumn (col_id c) (col_name c) (col_table c) None)
  | _ => col
  end.

(** A [Column] naming the wildcard of a table. *)
Definition table_wildcard (col : colspec) : bool :=
  match col with
  | CCol c => truthy (col_table c) && String.eqb (col_name c) "*"
  | _ => false
  end.

(** Two outcomes agree on whether an exception is raised, and on which. *)
Definition same_outcome {A B} (r : result A) (r' : result B) : Prop :=
  match r, r' with
  | Ok _, Ok _ => True
  | Raise e, Raise e' => e = e'
  | _, _ => False
  end.

(** The stage is one whose [render] looks at predicates. *)
Definition has_predicates (s : Stage) : bool :=
  match s with
  | SFilter _ | SJoin _ => true
  | _ => false
  end.

(** The last character of a string. *)
Fixpoint last_char (s : string) : option ascii :=
  match s with
  | EmptyString => None
  | String a EmptyString => Some a
  | String _ s' => last_char s'
  end.

(** The Predicate [x IS NULL] as the constructor stores it, a Query
    filtered by it, and the Predicate [y < 2]. *)
Definition x_is_null : Predicate :=
  mkPredicate (CStr "x") "IS" (PStr "NULL") [].

Definition null_filtered : Query :=
  mkQuery [STable "a"; SFilter (Filter_init [x_is_null] Filter_AND)] ["a"].

Definition y_below_two : Predicate :=
  mkPredicate (CStr "y") "<" (PInt 2) [PInt 2].

(** [Join("c", "id", "=", "id")] as stored, and the Aggregation counting
    all rows under the alias n. *)
Definition join_c : Join :=
  mkJoin None "c" (Some (CStr "id")) (Some "=") (Some (CStr "id")) "INNER" None
         [] None.

Definition count_n : Aggregation :=
  mkAggregation [("COUNT", Some (CStr "*"), Some "n")] [].

(* ------------------------------------------------------------------ *)
(** * Properties *)

(** *** Strings *)

Lemma append_assoc_s (a b d : string) : (a ++ b) ++ d = a ++ (b ++ d).
Proof. induction a as [|x a IH]; cbn; [reflexivity | now rewrite IH]. Qed.

Lemma append_nil_r_s (s : string) : s ++ EmptyString = s.
Proof. induction s as [|x s IH]; cbn; [reflexivity | now rewrite IH]. Qed.

Lemma prefix_cons a p b s :
  String.prefix (String a p) (String b s) = true <->
  a = b /\ String.prefix p s = true.
Proof.
  cbn. destruct (ascii_dec a b) as [->|Hne]; split.
  - now split.
  - now intros [_ H].
  - discriminate.
  - now intros [H _].
Qed.

Lemma prefix_nil s : String.prefix EmptyString s = true.
Proof. destruct s; reflexivity. Qed.

Lemma prefix_app p s : String.prefix p (p ++ s) = true.
Proof.
  induction p as [|a p IH]; [apply prefix_nil|].
  cbn [append]. apply prefix_cons. now split.
Qed.

Lemma prefix_split p : forall s,
  String.prefix p s = true -> s = p ++ drop (String.length p) s.
Proof.
  induction p as [|a p IH]; intros s H; [reflexivity|].
  destruct s as [|b s]; [discriminate|].
  apply prefix_cons in H. destruct H as [-> H].
  cbn. f_equal. now apply IH.
Qed.

Lemma prefix_app_r p : forall s x,
  String.prefix p s = true -> String.prefix p (s ++ x) = true.
Proof.
  induction p as [|a p IH]; intros s x H; [apply prefix_nil|].
  destruct s as [|b s]; [discriminate|].
  apply prefix_cons in H. destruct H as [-> H].
  cbn [append]. apply prefix_cons. split; [reflexivity | now apply IH].
Qed.

Lemma has_char_app c a b :
  has_char c (a ++ b) = has_char c a || has_char c b.
Proof.
  induction a as [|x a IH]; cbn; [reflexivity|].
  now rewrite IH, orb_assoc.
Qed.

Lemma lacks_app c a b : lacks c (a ++ b) = lacks c a && lacks c b.
Proof. unfold lacks. now rewrite has_char_app, negb_orb. Qed.

Lemma lacks_cons c a s :
  lacks c (String a s) = true <-> a <> c /\ lacks c s = true.
Proof.
  unfold lacks. cbn. rewrite negb_orb, andb_true_iff, negb_true_iff.
  now rewrite Ascii.eqb_neq.
Qed.

Lemma lacks_all_in c big : lacks c big = true ->
  forall lit, all_in lit big = true -> lacks c lit = true.
Proof.
  intros Hbig lit. induction lit as [|a lit IH]; intros H; [reflexivity|].
  cbn in H. apply andb_true_iff in H. destruct H as [Ha Hlit].
  apply lacks_cons. split; [|now apply IH].
  intros ->. unfold lacks in Hbig. now rewrite Ha in Hbig.
Qed.

Lemma join_cons2 sep x y l :
  join sep (x :: y :: l) = x ++ sep ++ join sep (y :: l).
Proof. reflexivity. Qed.

Section Properties.

Context {V : Validate}.

(** *** The render loop *)

Lemma render_step_values stage prev text query values :
  snd (render_step stage prev text query values)
  = (values ++ stage_values stage)%list.
Proof.
  destruct stage; cbn [render_step stage_values];
    try (destruct prev as [[]|]); try (destruct (startswith query "SELECT "));
    try (destruct (truthy_cols cols)); cbn [snd];
    solve [reflexivity | now rewrite app_nil_r].
Qed.

Lemma last_cons_default {A} (l : list A) : forall x d d',
  last (x :: l) d = last (x :: l) d'.
Proof.
  induction l as [|y l IH]; intros x d d'; [reflexivity|].
  change (last (y :: l) d = last (y :: l) d'). apply IH.
Qed.

Lemma prev_after_cons s l prev :
  prev_after (s :: l) prev = prev_after l (Some s).
Proof.
  unfold prev_after. destruct l as [|s' l]; [reflexivity|].
  cbn [map].
  change (last (Some s' :: map Some l) prev
          = last (Some s' :: map Some l) (Some s)).
  apply last_cons_default.
Qed.

Lemma render_loop_app ph l1 : forall l2 query values prev,
  render_loop ph (l1 ++ l2) query values prev =
  ('(query', values') <- render_loop ph l1 query values prev ;;
   render_loop ph l2 query' values' (prev_after l1 prev)).
Proof.
  induction l1 as [|s l1 IH]; intros l2 query values prev.
  - reflexivity.
  - cbn [app render_loop]. destruct (Stage_render ph s) as [text|e]; cbn [rbind].
    + destruct (render_step s prev text query values) as [q' v'].
      rewrite IH, prev_after_cons. reflexivity.
    + reflexivity.
Qed.

Lemma render_loop_values ph l : forall query values prev query' values',
  render_loop ph l query values prev = Ok (query', values') ->
  values' = (values ++ gathered l)%list.
Proof.
  induction l as [|s l IH]; intros query values prev query' values' H.
  - cbn in H. injection H as _ <-. cbn. now rewrite app_nil_r.
  - cbn [render_loop] in H.
    destruct (Stage_render ph s) as [text|e]; cbn [rbind] in H; [|discriminate].
    pose proof (render_step_values s prev text query values) as Hv.
    destruct (render_step s prev text query values) as [q1 v1]. cbn in Hv.
    apply IH in H. subst. cbn [gathered flat_map].
    now rewrite app_assoc.
Qed.

(** What [render] returns, and that it hands the object back untouched. *)
Lemma Query_render_run ph q :
  Query_render ph q
  = (match tables q with
     | [] => Raise (InvalidQuery "no table")
     | _ => '(query, values) <- render_loop ph (stages q) EmptyString [] None ;;
            Ok (render_finish query, values)
     end, q).
Proof.
  unfold Query_render, bind, get_tables, get_stages, lift, raise, ret.
  destruct (tables q); [reflexivity|].
  destruct (render_loop ph (stages q) EmptyString [] None) as [[query values]|e];
    reflexivity.
Qed.

(** C8. [render] is read-only and deterministic: a call leaves the stage
    sequence and the table stack as they were, and a second call with the
    same placeholder returns the same outcome. *)
Theorem render_read_only_deterministic :
  forall (ph : string) (q : Query),
    snd (Query_render ph q) = q /\
    stages (snd (Query_render ph q)) = stages q /\
    tables (snd (Query_render ph q)) = tables q /\
    fst (Query_render ph (snd (Query_render ph q))) = fst (Query_render ph q).
Proof.
  intros ph q.
  rewrite !Query_render_run. cbn [fst snd]. repeat split; reflexivity.
Qed.

(** C10. When a Table stage is rendered after other stages, the text they
    contributed is discarded: the outcome of [render] is that of the loop
    restarted at the Table's own FROM clause, and the earlier stages
    survive only through the bound values gathered from them. *)
Theorem render_later_Table_resets :
  forall (ph : string) (pre post : list Stage) (name : string)
         (ts : list string) (query1 : string) (values1 : list pyval),
    ts <> [] ->
    render_loop ph pre EmptyString [] None = Ok (query1, values1) ->
    values1 = gathered pre /\
    fst (Query_render ph (mkQuery (pre ++ STable name :: post) ts))
    = ('(query, values) <-
         render_loop ph post ("FROM " ++ quoted name) (gathered pre)
                     (Some (STable name)) ;;
       Ok (render_finish query, values)).
Proof.
  intros ph pre post name ts query1 values1 Hts Hpre.
  pose proof (render_loop_values _ _ _ _ _ _ _ Hpre) as Hv. cbn in Hv.
  split; [exact Hv|].
  rewrite Query_render_run. cbn [fst tables stages].
  destruct ts as [|t ts]; [congruence|].
  rewrite render_loop_app, Hpre. subst values1. reflexivity.
Qed.

(** *** Predicates with a null right-hand side *)

Lemma Predicate_init_bad_op lhs op rhs :
  mem op COMP_OPS = false ->
  Predicate_init lhs op rhs = Raise (InvalidComparisonOperator op).
Proof. intros H. unfold Predicate_init. now rewrite H. Qed.

Lemma Predicate_init_None lhs op :
  Predicate_init lhs op PNone = Predicate_init lhs op (PStr "NULL").
Proof. reflexivity. Qed.

(** Construction from a plain path and [None], spelled out. *)
Lemma Predicate_init_null l op :
  mem op COMP_OPS = true ->
  Predicate_init (CStr l) op PNone
  = if validate_path (stripped l) then
      if mem op NULL_OPS
      then Ok (mkPredicate (CStr (stripped l)) op (PStr "NULL") [])
      else Raise (InvalidComparisonOperator op)
    else Raise (InvalidPath (stripped l)).
Proof.
  intros Hop. unfold Predicate_init, Predicate_list_property, stripped,
    lhs_endswith, check_path.
  rewrite Hop. cbn [negb colspec_str rbind].
  change (String.eqb (lower "NULL") "null") with true.
  destruct (endswith l "[*]"); cbn [negb rbind];
    (destruct (validate_path _); cbn [rbind]; [|reflexivity]);
    unfold Predicate_store;
    change (is_null_str (PStr "NULL")) with true; cbv iota;
    change (mem op ["="; "!="; "<>"; "IS"; "IS NOT"]) with (mem op NULL_OPS);
    destruct (mem op NULL_OPS); reflexivity.
Qed.

Lemma NULL_OPS_COMP_OPS op : mem op NULL_OPS = true -> mem op COMP_OPS = true.
Proof.
  unfold mem, NULL_OPS, COMP_OPS. cbn [existsb].
  intros H. repeat (apply orb_true_iff in H; destruct H as [H|H]);
    rewrite ?H, ?orb_true_r; try reflexivity; discriminate.
Qed.

(** For a valid path and [None], construction succeeds exactly for the
    operators of [NULL_OPS]; every other operator raises
    [InvalidComparisonOperator]. *)
Lemma Predicate_init_null_iff l op :
  validate_path (stripped l) = true ->
  (mem op NULL_OPS = true ->
   Predicate_init (CStr l) op PNone
   = Ok (mkPredicate (CStr (stripped l)) op (PStr "NULL") [])) /\
  (mem op NULL_OPS = false ->
   Predicate_init (CStr l) op PNone = Raise (InvalidComparisonOperator op)).
Proof.
  intros Hl. split; intros Hop.
  - rewrite Predicate_init_null by now apply NULL_OPS_COMP_OPS.
    now rewrite Hl, Hop.
  - destruct (mem op COMP_OPS) eqn:Hc.
    + rewrite Predicate_init_null by assumption. now rewrite Hl, Hop.
    + now apply Predicate_init_bad_op.
Qed.

(** Equality and inequality against null render as IS NULL and IS NOT NULL,
    whatever the placeholder. *)
Lemma Predicate_render_null lhs op s ph :
  is_null_str (PStr s) = true ->
  Predicate_render ph (mkPredicate lhs op (PStr s) [])
  = if mem op ["!="; "<>"] then Ok ("(" ++ _quote lhs ++ " IS NOT NULL)")
    else if String.eqb op "=" then Ok ("(" ++ _quote lhs ++ " IS NULL)")
    else Raise (InvalidComparisonOperator op).
Proof.
  intros H. unfold Predicate_render. cbn [p_rhs p_op p_lhs]. now rewrite H.
Qed.

(** The bound values of a constructed Predicate are those its right-hand
    side calls for. *)
Lemma Predicate_init_values lhs op rhs p :
  Predicate_init lhs op rhs = Ok p ->
  p_values p
  = if is_null_str (p_rhs p) then []
    else match p_rhs p with
         | PSeq l => l
         | PCol _ => []
         | v => [v]
         end.
Proof.
  unfold Predicate_init.
  destruct (negb (mem op COMP_OPS)); [discriminate|].
  destruct (Predicate_list_property lhs op _) as [[[lhs' op'] rhs']|e];
    cbn [rbind]; [|discriminate].
  destruct (match lhs' with CStr l => check_path l | _ => Ok tt end);
    cbn [rbind]; [|discriminate].
  unfold Predicate_store.
  destruct (is_null_str rhs') eqn:Hnull.
  - destruct (negb _); [discriminate|].
    intros H. injection H as <-. cbn [p_values p_rhs]. now rewrite Hnull.
  - destruct rhs'; intros H; injection H as <-; cbn [p_values p_rhs];
      now rewrite Hnull.
Qed.

(** C4. A Predicate built from a valid path, the operator [IS] or [IS NOT]
    and [None] is accepted by the constructor and carries no bound value,
    but [render] raises [InvalidComparisonOperator] on it instead of
    producing the IS NULL / IS NOT NULL text. *)
Theorem null_identity_predicate_fails_to_render :
  forall (l op ph : string),
    validate_path (stripped l) = true ->
    op = "IS" \/ op = "IS NOT" ->
    exists pred,
      Predicate_init (CStr l) op PNone = Ok pred /\
      p_values pred = [] /\
      Predicate_render ph pred = Raise (InvalidComparisonOperator op).
Proof.
  intros l op ph Hl Hop.
  exists (mkPredicate (CStr (stripped l)) op (PStr "NULL") []).
  destruct (Predicate_init_null_iff l op Hl) as [Hok _].
  destruct Hop as [-> | ->]; (split; [now apply Hok | split; reflexivity]).
Qed.

(** A right-hand string ["NULL"] or ["null"] is treated as the null marker:
    construction has the same outcome as with [None] (the same exception, or
    a Predicate with the same path and operator), the Predicate carries no
    bound value, its operator is one of [NULL_OPS], and for every
    placeholder [render] returns what it returns for the Predicate built
    from [None] -- IS NULL for [=], IS NOT NULL for [!=] and [<>] -- never a
    comparison with the string. *)
Lemma null_string_like_None :
  forall (lhs : colspec) (op s : string),
    s = "NULL" \/ s = "null" ->
    match Predicate_init lhs op (PStr s), Predicate_init lhs op PNone with
    | Ok p, Ok p0 =>
        p_lhs p = p_lhs p0 /\ p_op p = op /\ p_op p0 = op /\
        p_values p = [] /\ p_values p0 = [] /\
        mem op NULL_OPS = true /\
        (forall ph, Predicate_render ph p = Predicate_render ph p0) /\
        (forall ph, op = "=" ->
           Predicate_render ph p = Ok ("(" ++ _quote (p_lhs p) ++ " IS NULL)")) /\
        (forall ph, op = "!=" \/ op = "<>" ->
           Predicate_render ph p
           = Ok ("(" ++ _quote (p_lhs p) ++ " IS NOT NULL)"))
    | Raise e, Raise e0 => e = e0
    | _, _ => False
    end.
Proof.
  intros lhs op s Hs.
  assert (Hlow : String.eqb (lower s) "null" = true)
    by (destruct Hs as [-> | ->]; reflexivity).
  assert (Hnull : is_null_str (PStr s) = true)
    by (destruct Hs as [-> | ->]; reflexivity).
  unfold Predicate_init.
  destruct (mem op COMP_OPS); cbn [negb]; [|reflexivity].
  unfold Predicate_list_property.
  change (String.eqb (lower "NULL") "null") with true. rewrite Hlow.
  assert (Hstore : forall lhs',
    match Predicate_store lhs' op (PStr s),
          Predicate_store lhs' op (PStr "NULL") with
    | Ok p, Ok p0 =>
        p_lhs p = p_lhs p0 /\ p_op p = op /\ p_op p0 = op /\
        p_values p = [] /\ p_values p0 = [] /\
        mem op NULL_OPS = true /\
        (forall ph, Predicate_render ph p = Predicate_render ph p0) /\
        (forall ph, op = "=" ->
           Predicate_render ph p = Ok ("(" ++ _quote (p_lhs p) ++ " IS NULL)")) /\
        (forall ph, op = "!=" \/ op = "<>" ->
           Predicate_render ph p
           = Ok ("(" ++ _quote (p_lhs p) ++ " IS NOT NULL)"))
    | Raise e, Raise e0 => e = e0
    | _, _ => False
    end).
  { intros lhs'. unfold Predicate_store. rewrite Hnull.
    change (is_null_str (PStr "NULL")) with true. cbv iota.
    change (mem op ["="; "!="; "<>"; "IS"; "IS NOT"]) with (mem op NULL_OPS).
    destruct (mem op NULL_OPS); cbn [negb]; [|reflexivity].
    cbn [p_lhs p_op p_values].
    repeat (split; [reflexivity|]).
    split; [|split].
    - intros ph. rewrite !Predicate_render_null by (assumption || reflexivity).
      reflexivity.
    - intros ph ->. now rewrite Predicate_render_null by assumption.
    - intros ph [-> | ->]; now rewrite Predicate_render_null by assumption. }
  destruct lhs as [l|c|c]; unfold lhs_endswith; cbn [rbind colspec_str];
    try reflexivity;
    match goal with |- context [endswith ?x ?y] => destruct (endswith x y) end;
    cbn [negb rbind]; try reflexivity;
    try (destruct (check_path _); cbn [rbind]; [apply Hstore | reflexivity]);
    apply Hstore.
Qed.

(** C9. A Predicate built from a valid path, the operator [IS] or
    [IS NOT] and the string ["NULL"] or ["null"] is accepted by the
    constructor as a null predicate and carries no bound value, but
    [render] raises [InvalidComparisonOperator] on it instead of producing
    the IS NULL / IS NOT NULL text. *)
Theorem null_string_identity_fails_to_render :
  forall (l op s ph : string),
    validate_path (stripped l) = true ->
    op = "IS" \/ op = "IS NOT" ->
    s = "NULL" \/ s = "null" ->
    exists pred,
      Predicate_init (CStr l) op (PStr s) = Ok pred /\
      p_values pred = [] /\
      Predicate_render ph pred = Raise (InvalidComparisonOperator op).
Proof.
  intros l op s ph Hl Hop Hs.
  exists (mkPredicate (CStr (stripped l)) op (PStr s) []).
  assert (Hinit : Predicate_init (CStr l) op (PStr s)
                  = Ok (mkPredicate (CStr (stripped l)) op (PStr s) [])).
  { unfold Predicate_init, Predicate_list_property, lhs_endswith, check_path.
    unfold stripped in *. cbn [colspec_str rbind].
    destruct Hop as [-> | ->]; destruct Hs as [-> | ->];
      change (negb (mem _ COMP_OPS)) with false; cbv iota;
      change (String.eqb (lower _) "null") with true;
      destruct (endswith l "[*]"); cbn [negb rbind];
      rewrite Hl; reflexivity. }
  split; [exact Hinit|]. split; [reflexivity|].
  destruct Hop as [-> | ->]; destruct Hs as [-> | ->]; reflexivity.
Qed.

(** *** Multi-valued paths *)

Lemma wildcard_not_null r : is_null_str (PStr (wildcard r)) = false.
Proof. reflexivity. Qed.

(** C5 (as amended). For a left-hand path ending with the marker ["[*]"]
    whose remainder is a valid path, an operator of [COMP_OPS] and a
    right-hand string that is not a spelling of null in any letter case,
    construction strips the marker, wraps the value with wildcards and
    rewrites [=] to [LIKE] and [!=] to [NOT LIKE]; the wrapped string is
    the single bound value, and a Predicate built with [=] renders as a
    LIKE comparison with one placeholder. *)
Theorem list_property_predicate :
  forall (l op r : string),
    endswith l "[*]" = true ->
    validate_path (chop 3 l) = true ->
    mem op COMP_OPS = true ->
    String.eqb (lower r) "null" = false ->
    Predicate_init (CStr l) op (PStr r)
    = Ok (mkPredicate (CStr (chop 3 l)) (like_op op) (PStr (wildcard r))
                      [PStr (wildcard r)]) /\
    (op = "=" ->
     forall ph,
       Predicate_render ph
         (mkPredicate (CStr (chop 3 l)) (like_op op) (PStr (wildcard r))
                      [PStr (wildcard r)])
       = Ok ("(" ++ quote_name (chop 3 l) ++ " LIKE " ++ ph ++ ")")).
Proof.
  intros l op r Hend Hpath Hop Hr. split.
  - unfold Predicate_init, Predicate_list_property, lhs_endswith.
    rewrite Hop. cbn [negb colspec_str rbind]. rewrite Hend, Hr. cbn [negb].
    assert (Hstore : forall op',
      Predicate_store (CStr (chop 3 l)) op' (PStr ("%" ++ r ++ "%"))
      = Ok (mkPredicate (CStr (chop 3 l)) op' (PStr (wildcard r))
                        [PStr (wildcard r)])) by reflexivity.
    unfold like_op, check_path.
    destruct (String.eqb op "="); [|destruct (String.eqb op "!=")];
      cbn [rbind]; rewrite Hpath; cbn [rbind]; apply Hstore.
  - intros -> ph. reflexivity.
Qed.

(** *** Appending *)

Lemma last_stage_snoc l x ts :
  last_stage (mkQuery (l ++ [x]) ts) = (Ok (Some x), mkQuery (l ++ [x]) ts).
Proof.
  unfold last_stage, bind, get_stages, ret. cbn [stages].
  rewrite map_app. cbn [map]. now rewrite last_last.
Qed.

Lemma pop_stage_snoc l x ts :
  pop_stage (mkQuery (l ++ [x]) ts) = (Ok tt, mkQuery l ts).
Proof.
  unfold pop_stage, bind, get_stages, put_stages. cbn [stages tables].
  now rewrite removelast_last.
Qed.

Lemma push_stage_run x q :
  push_stage x q = (Ok tt, mkQuery (stages q ++ [x]) (tables q)).
Proof. reflexivity. Qed.

Lemma Query_extend_cons s rest q :
  Query_extend (s :: rest) q
  = match Query_append s q with
    | (Ok _, q') => Query_extend rest q'
    | (Raise e, q') => (Raise e, q')
    end.
Proof. reflexivity. Qed.

Lemma append_Projection_run cols q :
  Query_append (SProjection cols) q
  = (Ok tt, mkQuery (stages q ++ [SProjection cols]) (tables q)).
Proof. reflexivity. Qed.

Lemma append_Unique_run q :
  Query_append SUnique q = (Ok tt, mkQuery (stages q ++ [SUnique]) (tables q)).
Proof. reflexivity. Qed.

(** [Count] after [Projection], [Unique]: both are taken off and a
    [CountUnique] over the Projection's columns is stored instead. *)
Lemma append_Count_folds l cols ts :
  riter _validate_column cols = Ok tt ->
  Query_append SCount (mkQuery (l ++ [SProjection cols; SUnique]) ts)
  = (Ok tt, mkQuery (l ++ [SCountUnique (Some cols)]) ts).
Proof.
  intros Hv. unfold Query_append.
  change (l ++ [SProjection cols; SUnique])%list
    with (l ++ [SProjection cols] ++ [SUnique])%list.
  rewrite app_assoc.
  unfold bind at 1. rewrite last_stage_snoc.
  unfold bind at 1. rewrite pop_stage_snoc.
  unfold bind at 1. rewrite last_stage_snoc.
  unfold bind at 1. unfold bind at 1. rewrite pop_stage_snoc.
  unfold ret, bind, lift, CountUnique_init. rewrite Hv. reflexivity.
Qed.

(** C6 (as amended). Appending Projection(["a","b"]), then Unique, then
    Count to any Query leaves one stage in place of the three, a
    CountUnique over a and b, which renders as
    COUNT(DISTINCT "a", "b") AS "count"; on Query("t") the rendered SQL is
    that count selected from the table and holds no SELECT "a" clause. *)
Theorem projection_unique_count_folds :
  forall (q : Query),
    validate_path "a" = true ->
    validate_path "b" = true ->
    Query_extend projection_unique_count q
    = (Ok tt,
       mkQuery (stages q ++ [SCountUnique (Some [CStr "a"; CStr "b"])])
               (tables q)) /\
    (forall ph,
       Stage_render ph (SCountUnique (Some [CStr "a"; CStr "b"]))
       = Ok ("COUNT(DISTINCT " ++ quoted "a" ++ ", " ++ quoted "b"
               ++ ") AS " ++ quoted "count")) /\
    (let q' := snd (Query_extend projection_unique_count
                      (mkQuery [STable "t"] ["t"])) in
     fst (Query_render "?" q')
     = Ok ("SELECT COUNT(DISTINCT " ++ quoted "a" ++ ", " ++ quoted "b"
             ++ ") AS " ++ quoted "count" ++ " FROM " ++ quoted "t", []) /\
     forall text values,
       fst (Query_render "?" q') = Ok (text, values) ->
       contains text ("SELECT " ++ quoted "a") = false).
Proof.
  intros q Ha Hb.
  assert (Hv : riter _validate_column [CStr "a"; CStr "b"] = Ok tt).
  { cbn [riter _validate_column]. unfold _validate_column_name, check_path.
    cbn [negb String.eqb Ascii.eqb Bool.eqb]. now rewrite Ha, Hb. }
  assert (Hfold : forall q0 : Query,
    Query_extend projection_unique_count q0
    = (Ok tt,
       mkQuery (stages q0 ++ [SCountUnique (Some [CStr "a"; CStr "b"])])
               (tables q0))).
  { intros q0. unfold projection_unique_count.
    rewrite Query_extend_cons, append_Projection_run.
    rewrite Query_extend_cons, append_Unique_run.
    cbn [stages tables]. rewrite <- app_assoc. cbn [app].
    rewrite Query_extend_cons, (append_Count_folds _ _ _ Hv). reflexivity. }
  split; [apply Hfold|]. split; [reflexivity|].
  rewrite Hfold. cbn [snd stages tables app].
  split; [reflexivity|].
  intros text values H. vm_compute in H. injection H as <- _. reflexivity.
Qed.

(** C3 (as amended). With the Projection appended first, appending the
    Aggregation raises [InvalidQuery]; the query built as Query("events")
    with Group(["type"]) and the Aggregation counting all rows as "n" renders,
    with placeholder "?", to the select list made of "type" and that count
    aliased "n", followed by GROUP BY "type", and binds no value. *)
Theorem grouped_aggregation_renders :
  validate_name "events" = true ->
  validate_path "type" = true ->
  (exists q,
     events_projected_grouped
     = Ok (Raise (InvalidQuery "cannot have Aggregation after Projection"), q)) /\
  (exists q,
     events_grouped = Ok (Ok tt, q) /\
     fst (Query_render "?" q)
     = Ok ("SELECT " ++ quoted "type" ++ ", COUNT(*) AS " ++ quoted "n"
             ++ " FROM " ++ quoted "events"
             ++ " GROUP BY " ++ quoted "type", [])).
Proof.
  intros Hn Hp.
  assert (Hq : Query_init (QName "events")
               = Ok (mkQuery [STable "events"] ["events"])).
  { unfold Query_init, Table_init, check_name, lift, bind. rewrite Hn.
    reflexivity. }
  assert (Hproj : Projection_init [CStr "type"] = Ok (SProjection [CStr "type"])).
  { unfold Projection_init. cbn [riter _validate_column].
    unfold _validate_column_name, check_path.
    cbn [negb String.eqb Ascii.eqb Bool.eqb]. now rewrite Hp. }
  assert (Hgrp : Group_init [CStr "type"] = Ok (SGroup [CStr "type"])).
  { unfold Group_init. cbn [riter _validate_column].
    unfold _validate_column_name, check_path.
    cbn [negb String.eqb Ascii.eqb Bool.eqb]. now rewrite Hp. }
  assert (Hagg : agg_count_n
                 = Ok (SAggregation
                         (mkAggregation [("COUNT", Some (CStr "*"), Some "n")] [])))
    by reflexivity.
  split.
  - eexists. unfold events_projected_grouped, build.
    rewrite Hq. cbn [rbind rmap]. rewrite Hproj, Hgrp, Hagg. reflexivity.
  - eexists. unfold events_grouped, build.
    rewrite Hq. cbn [rbind rmap]. rewrite Hgrp, Hagg. cbn [rbind].
    split; reflexivity.
Qed.

(** Appending a stage other than Count and CountUnique never removes a
    stage, so a Projection stays in the sequence. *)
Lemma append_keeps_Projection (s : Stage) (q : Query) :
  folds s = false ->
  existsb is_Projection (stages q) = true ->
  existsb is_Projection (stages (snd (Query_append s q))) = true.
Proof.
  intros Hs Hq.
  assert (Hpush : forall x,
    existsb is_Projection (stages (snd (push_stage x q))) = true).
  { intros x. rewrite push_stage_run. cbn [snd stages].
    now rewrite existsb_app, Hq. }
  destruct s; try discriminate; try apply Hpush.
  - (* Aggregation *)
    unfold Query_append. unfold bind at 1. unfold get_stages. now rewrite Hq.
  - (* Join *)
    unfold Query_append. unfold bind at 1.
    unfold last_stage, bind, get_stages, ret.
    destruct (last (map Some (stages q)) None) as [[]|];
      try exact Hq; try apply Hpush.
    destruct (Join_eq j0 j); [exact Hq | apply Hpush].
Qed.

Lemma extend_keeps_Projection (l : list Stage) : forall q,
  forallb (fun s => negb (folds s)) l = true ->
  existsb is_Projection (stages q) = true ->
  existsb is_Projection (stages (snd (Query_extend l q))) = true.
Proof.
  induction l as [|s l IH]; intros q Hl Hq; [exact Hq|].
  cbn [forallb] in Hl. apply andb_true_iff in Hl. destruct Hl as [Hs Hl].
  apply negb_true_iff in Hs.
  pose proof (append_keeps_Projection s q Hs Hq) as H.
  rewrite Query_extend_cons.
  destruct (Query_append s q) as [[[]|e] q1]; cbn [snd] in *;
    [now apply IH | exact H].
Qed.

(** Once a Projection has been appended, no sequence of further appends
    without Count and CountUnique makes room for an Aggregation. *)
Lemma Aggregation_after_appended_Projection cols mid a q :
  forallb (fun s => negb (folds s)) mid = true ->
  fst (Query_append (SAggregation a)
         (snd (Query_extend (SProjection cols :: mid) q)))
  = Raise (InvalidQuery "cannot have Aggregation after Projection").
Proof.
  intros Hmid.
  assert (H : existsb is_Projection
                (stages (snd (Query_extend (SProjection cols :: mid) q)))
              = true).
  { rewrite Query_extend_cons, append_Projection_run.
    apply extend_keeps_Projection; [exact Hmid|].
    cbn [stages]. rewrite existsb_app. cbn. apply orb_true_r. }
  unfold Query_append. unfold bind at 1. unfold get_stages. now rewrite H.
Qed.

Lemma append_Aggregation_held_Projection a q :
  existsb is_Projection (stages q) = true ->
  Query_append (SAggregation a) q
  = (Raise (InvalidQuery "cannot have Aggregation after Projection"), q).
Proof.
  intros H. unfold Query_append, bind, get_stages. now rewrite H.
Qed.

(** C2. Appending an Aggregation fails with [InvalidQuery] as soon as the
    stage sequence holds a Projection, whatever stages come before it
    ([pre]) or lie between it and the Aggregation ([post]); the Query is
    left as it was.  A Projection that was appended is still held after any
    further appends ([mid]) none of which is a Count or a CountUnique, the
    two stages whose append can fold a Projection away, so the Aggregation
    fails after them. *)
Theorem append_Aggregation_after_Projection :
  (forall (pre post : list Stage) (cols : list colspec) (ts : list string)
          (a : Aggregation),
     Query_append (SAggregation a)
                  (mkQuery (pre ++ SProjection cols :: post) ts)
     = (Raise (InvalidQuery "cannot have Aggregation after Projection"),
        mkQuery (pre ++ SProjection cols :: post) ts)) /\
  (forall (cols : list colspec) (mid : list Stage) (a : Aggregation)
          (q : Query),
     forallb (fun s => negb (folds s)) mid = true ->
     Query_append (SAggregation a)
                  (snd (Query_extend (SProjection cols :: mid) q))
     = (Raise (InvalidQuery "cannot have Aggregation after Projection"),
        snd (Query_extend (SProjection cols :: mid) q))).
Proof.
  split.
  - intros pre post cols ts a.
    unfold Query_append, bind, get_stages. cbn [stages].
    rewrite existsb_app. cbn [existsb is_Projection].
    now rewrite orb_true_r.
  - intros cols mid a q Hmid.
    apply append_Aggregation_held_Projection.
    rewrite Query_extend_cons, append_Projection_run.
    apply extend_keeps_Projection; [exact Hmid|].
    cbn [stages]. rewrite existsb_app. cbn [existsb is_Projection orb].
    apply orb_true_r.
Qed.

(** *** Joins *)

Lemma opt_eqb_refl o : opt_eqb o o = true.
Proof. destruct o; cbn; [apply String.eqb_refl | reflexivity]. Qed.

Lemma opt_col_eqb_refl o : opt_col_eqb o o = true.
Proof.
  destruct o as [[s|c|c]|]; cbn;
    [apply String.eqb_refl | apply Nat.eqb_refl | apply Nat.eqb_refl
    | reflexivity].
Qed.

Lemma Join_eq_refl j : Join_eq j j = true.
Proof.
  unfold Join_eq.
  now rewrite !opt_eqb_refl, !opt_col_eqb_refl, !String.eqb_refl.
Qed.

(** C7 (as amended). On a Query whose last stage is a Join, appending a
    Join that [Join.__eq__] finds equal to it -- same left-hand table,
    table name, columns, operator, join kind and alias -- is dropped: stage
    sequence and table stack stay as they were, and [render] returns what it
    returned before. *)
Theorem append_equal_Join_dropped :
  forall (pre : list Stage) (ts : list string) (j j' : Join),
    Join_eq j j' = true ->
    Query_append (SJoin j') (mkQuery (pre ++ [SJoin j]) ts)
    = (Ok tt, mkQuery (pre ++ [SJoin j]) ts) /\
    forall ph,
      fst (Query_render ph
             (snd (Query_append (SJoin j') (mkQuery (pre ++ [SJoin j]) ts))))
      = fst (Query_render ph (mkQuery (pre ++ [SJoin j]) ts)).
Proof.
  intros pre ts j j' Heq.
  assert (H : Query_append (SJoin j') (mkQuery (pre ++ [SJoin j]) ts)
              = (Ok tt, mkQuery (pre ++ [SJoin j]) ts)).
  { unfold Query_append. unfold bind at 1. rewrite last_stage_snoc.
    rewrite Heq. reflexivity. }
  split; [exact H|]. intros ph. now rewrite H.
Qed.

(** A Join with an explicit left-hand table is stored as it is, so
    appending it a second time changes nothing. *)
Lemma append_Join_twice (q : Query) (j : Join) :
  truthy (j_prev_name j) = true ->
  (_ <~ Query_append (SJoin j) ;; Query_append (SJoin j)) q
  = Query_append (SJoin j) q.
Proof.
  intros Hlhs. unfold bind at 1.
  destruct (Query_append (SJoin j) q) as [[[]|e] q'] eqn:Happ; [|reflexivity].
  revert Happ. unfold Query_append. rewrite Hlhs. cbn [negb].
  unfold bind at 1.
  destruct (last_stage q) as [r q0] eqn:Hlast.
  assert (Hq0 : q0 = q /\ r = Ok (last (map Some (stages q)) None)).
  { unfold last_stage, bind, get_stages, ret in Hlast.
    injection Hlast as <- <-. now split. }
  destruct Hq0 as [-> ->].
  destruct (last (map Some (stages q)) None) as [[]|] eqn:Hl;
    try (unfold raise; discriminate).
  - rewrite push_stage_run. intros H. injection H as <-.
    unfold bind at 1. rewrite last_stage_snoc. now rewrite Join_eq_refl.
  - destruct (Join_eq j0 j) eqn:Heq.
    + unfold ret. intros H. injection H as <-.
      unfold bind at 1. rewrite Hlast. now rewrite Heq.
    + rewrite push_stage_run. intros H. injection H as <-.
      unfold bind at 1. rewrite last_stage_snoc. now rewrite Join_eq_refl.
Qed.

End Properties.

(* ------------------------------------------------------------------ *)
(** * Placeholders and bound values *)

Section Binding.

(** The placeholder token starts with the character [c], which occurs in no
    fixed SQL text. *)
Variable c : ascii.
Variable rest : string.
Let ph : string := String c rest.

Hypothesis c_not_sql : lacks c sql_chars = true.

Local Abbreviation filled := (filled c ph).

(** *** Texts with placeholders *)

Lemma lacks_fixed lit : all_in lit sql_chars = true -> lacks c lit = true.
Proof. now apply lacks_all_in. Qed.

Lemma filled_literal lit : forall ts s s',
  lacks c lit = true -> filled ts s s' -> filled ts (lit ++ s) (lit ++ s').
Proof.
  induction lit as [|a lit IH]; intros ts s s' Hl H; [exact H|].
  apply lacks_cons in Hl. destruct Hl as [Ha Hl].
  cbn [append]. apply filled_lit; [exact Ha | now apply IH].
Qed.

Lemma filled_text lit : lacks c lit = true -> filled [] lit lit.
Proof.
  intros Hl. rewrite <- (append_nil_r_s lit).
  apply filled_literal; [exact Hl | constructor].
Qed.

Lemma filled_one t : filled [t] ph t.
Proof.
  pose proof (filled_ph c ph t [] EmptyString EmptyString (filled_nil c ph)) as H.
  now rewrite !append_nil_r_s in H.
Qed.

Lemma filled_app ts1 s1 s1' :
  filled ts1 s1 s1' ->
  forall ts2 s2 s2', filled ts2 s2 s2' ->
  filled (ts1 ++ ts2) (s1 ++ s2) (s1' ++ s2').
Proof.
  induction 1 as [|a ts s s' Ha H IH|t ts s s' H IH]; intros ts2 s2 s2' H2.
  - exact H2.
  - cbn [append]. apply filled_lit; [exact Ha | now apply IH].
  - rewrite !append_assoc_s. cbn [app]. apply filled_ph. now apply IH.
Qed.

Lemma filled_app_text ts s s' lit :
  filled ts s s' -> lacks c lit = true -> filled ts (s ++ lit) (s' ++ lit).
Proof.
  intros H Hl. rewrite <- (app_nil_r ts).
  apply filled_app; [exact H | now apply filled_text].
Qed.

(** A leading character other than [c] is shared by both texts. *)
Lemma filled_cons_inv a ts s x :
  a <> c -> filled ts (String a s) x ->
  exists s', x = String a s' /\ filled ts s s'.
Proof.
  intros Ha H. remember (String a s) as u eqn:Hu.
  destruct H as [|a0 ts0 s0 s0' Ha0 H0|t ts0 s0 s0' H0].
  - discriminate.
  - injection Hu as -> ->. now exists s0'.
  - unfold ph in Hu. cbn [append] in Hu. injection Hu as Hc _.
    subst a. now elim Ha.
Qed.

Lemma filled_strip lit : forall ts s x,
  lacks c lit = true -> filled ts (lit ++ s) x ->
  exists s', x = lit ++ s' /\ filled ts s s'.
Proof.
  induction lit as [|a lit IH]; intros ts s x Hl H; [now exists x|].
  apply lacks_cons in Hl. destruct Hl as [Ha Hl]. cbn [append] in H.
  apply filled_cons_inv in H; [|exact Ha]. destruct H as [s1 [-> H]].
  apply IH in H; [|exact Hl]. destruct H as [s' [-> H]].
  now exists s'.
Qed.

Lemma filled_empty ts x : filled ts EmptyString x -> ts = [] /\ x = EmptyString.
Proof.
  intros H. remember EmptyString as u eqn:Hu.
  destruct H as [|a0 ts0 s0 s0' Ha0 H0|t ts0 s0 s0' H0].
  - now split.
  - discriminate.
  - unfold ph in Hu. discriminate.
Qed.

(** *** Counting and filling *)

Lemma count_from_skip r : forall s,
  count_from ph (String.length r) (r ++ s) = count_from ph 0 s.
Proof. induction r as [|a r IH]; intros s; [reflexivity | apply IH]. Qed.

Lemma prefix_ph_lit a s : a <> c -> String.prefix ph (String a s) = false.
Proof.
  intros Ha. unfold ph. cbn. destruct (ascii_dec c a) as [->|]; [now elim Ha|].
  reflexivity.
Qed.

Lemma length_ph : String.length ph - 1 = String.length rest.
Proof. unfold ph. cbn [String.length]. lia. Qed.

Lemma count_from_ph s : count_from ph 0 (ph ++ s) = S (count_from ph 0 s).
Proof.
  pose proof (prefix_app ph s) as Hp.
  unfold ph at 2. cbn [append count_from].
  change (String c (rest ++ s)) with (ph ++ s).
  rewrite Hp, length_ph. f_equal. apply count_from_skip.
Qed.

Lemma filled_count ts s s' : filled ts s s' -> count s ph = List.length ts.
Proof.
  unfold count, ph. fold ph.
  induction 1 as [|a ts s s' Ha H IH|t ts s s' H IH].
  - reflexivity.
  - cbn [count_from]. now rewrite (prefix_ph_lit a s Ha).
  - rewrite count_from_ph, IH. reflexivity.
Qed.

Lemma fill_from_skip r : forall ts s,
  fill_from ph (String.length r) ts (r ++ s) = fill_from ph 0 ts s.
Proof. induction r as [|a r IH]; intros ts s; [reflexivity | apply IH]. Qed.

Lemma fill_from_ph t ts s :
  fill_from ph 0 (t :: ts) (ph ++ s)
  = option_map (append t) (fill_from ph 0 ts s).
Proof.
  pose proof (prefix_app ph s) as Hp.
  unfold ph at 2. cbn [append fill_from].
  change (String c (rest ++ s)) with (ph ++ s).
  rewrite Hp, length_ph. f_equal. apply fill_from_skip.
Qed.

Lemma filled_fill ts s s' : filled ts s s' -> fill ph ts s = Some s'.
Proof.
  unfold fill, ph. fold ph.
  induction 1 as [|a ts s s' Ha H IH|t ts s s' H IH].
  - reflexivity.
  - cbn [fill_from]. now rewrite (prefix_ph_lit a s Ha), IH.
  - now rewrite fill_from_ph, IH.
Qed.

(** *** Clauses *)

Variable show : pyval -> string.

Ltac lacks_tac :=
  rewrite ?lacks_app;
  repeat (apply andb_true_intro; split);
  first [assumption | apply lacks_fixed; reflexivity].

Lemma filled_join_cons sep ts1 t t' ts2 l l' :
  lacks c sep = true ->
  filled ts1 t t' ->
  filled ts2 (join sep l) (join sep l') ->
  List.length l = List.length l' ->
  filled (ts1 ++ ts2) (join sep (t :: l)) (join sep (t' :: l')).
Proof.
  intros Hsep H1 H2 Hlen.
  destruct l as [|x l], l' as [|x' l']; try discriminate.
  - cbn [join] in *. apply filled_empty in H2. destruct H2 as [-> _].
    now rewrite app_nil_r.
  - rewrite !join_cons2. apply filled_app; [exact H1|].
    now apply filled_literal.
Qed.

Lemma filled_repeat (l : list pyval) :
  filled (map show l) (join ", " (repeat ph (List.length l)))
         (join ", " (map show l)).
Proof.
  induction l as [|v l IH]; [constructor|].
  cbn [map List.length repeat].
  change (show v :: map show l) with ([show v] ++ map show l)%list.
  apply filled_join_cons.
  - apply lacks_fixed. reflexivity.
  - apply filled_one.
  - exact IH.
  - now rewrite repeat_length, length_map.
Qed.

Lemma Predicate_filled (p : Predicate) :
  Predicate_wf p -> Predicate_fresh c p = true ->
  exists text text',
    Predicate_render ph p = Ok text /\
    Predicate_inline show p = Ok text' /\
    filled (map show (p_values p)) text text'.
Proof.
  destruct p as [lhs op rhs values].
  unfold Predicate_wf, Predicate_fresh, Predicate_inline, Predicate_render.
  cbn [p_lhs p_op p_rhs p_values].
  intros Hwf Hfresh.
  apply andb_true_iff in Hfresh. destruct Hfresh as [Hfresh Hr].
  apply andb_true_iff in Hfresh. destruct Hfresh as [Hl Ho].
  destruct (is_null_str rhs) eqn:Hnull.
  - destruct Hwf as [Hop ->].
    destruct (mem op ["!="; "<>"]).
    + do 2 eexists. split; [reflexivity|]. split; [reflexivity|].
      apply filled_text. lacks_tac.
    + destruct Hop as [Hop | ->]; [discriminate|]. cbn [String.eqb Ascii.eqb Bool.eqb].
      do 2 eexists. split; [reflexivity|]. split; [reflexivity|].
      apply filled_text. lacks_tac.
  - destruct rhs as [|r|z|l|col|x|b].
    + destruct Hwf as [Hin ->]. rewrite Hin.
      do 2 eexists. split; [reflexivity|]. split; [reflexivity|].
      repeat (apply filled_literal; [lacks_tac|]).
      apply filled_app_text; [apply filled_one | lacks_tac].
    + destruct Hwf as [Hin ->]. rewrite Hin.
      do 2 eexists. split; [reflexivity|]. split; [reflexivity|].
      repeat (apply filled_literal; [lacks_tac|]).
      apply filled_app_text; [apply filled_one | lacks_tac].
    + destruct Hwf as [Hin ->]. rewrite Hin.
      do 2 eexists. split; [reflexivity|]. split; [reflexivity|].
      repeat (apply filled_literal; [lacks_tac|]).
      apply filled_app_text; [apply filled_one | lacks_tac].
    + destruct Hwf as [-> ->]. cbn [String.eqb Ascii.eqb Bool.eqb py_len rbind].
      do 2 eexists. split; [reflexivity|]. split; [reflexivity|].
      repeat (apply filled_literal; [lacks_tac|]).
      apply filled_app_text; [apply filled_repeat | lacks_tac].
    + subst values.
      do 2 eexists. split; [reflexivity|]. split; [reflexivity|].
      apply filled_text. lacks_tac.
    + destruct Hwf as [Hin ->]. rewrite Hin.
      do 2 eexists. split; [reflexivity|]. split; [reflexivity|].
      repeat (apply filled_literal; [lacks_tac|]).
      apply filled_app_text; [apply filled_one | lacks_tac].
    + destruct Hwf as [Hin ->]. rewrite Hin.
      do 2 eexists. split; [reflexivity|]. split; [reflexivity|].
      repeat (apply filled_literal; [lacks_tac|]).
      apply filled_app_text; [apply filled_one | lacks_tac].
Qed.

Lemma preds_filled sep (preds : list Predicate) :
  lacks c sep = true ->
  Forall Predicate_wf preds ->
  forallb (Predicate_fresh c) preds = true ->
  exists texts texts',
    rmap (Predicate_render ph) preds = Ok texts /\
    rmap (Predicate_inline show) preds = Ok texts' /\
    List.length texts = List.length texts' /\
    filled (map show (flat_map p_values preds))
           (join sep texts) (join sep texts').
Proof.
  intros Hsep Hwf Hfresh.
  induction preds as [|p preds IH].
  - exists [], []. repeat split. constructor.
  - inversion Hwf as [|p0 l0 Hp Hps]; subst.
    cbn [forallb] in Hfresh. apply andb_true_iff in Hfresh.
    destruct Hfresh as [Hfp Hfps].
    destruct (IH Hps Hfps) as (texts & texts' & Hr & Hi & Hlen & Hfill).
    destruct (Predicate_filled p Hp Hfp) as (t & t' & Hrt & Hit & Hft).
    exists (t :: texts), (t' :: texts').
    cbn [rmap]. rewrite Hrt, Hit, Hr, Hi. cbn [rbind].
    split; [reflexivity|]. split; [reflexivity|].
    split; [cbn; now rewrite Hlen|].
    cbn [flat_map]. rewrite map_app.
    now apply filled_join_cons.
Qed.

Lemma Filter_filled (f : Filter) :
  Filter_wf f -> Filter_fresh c f = true ->
  exists text text',
    Filter_render ph f = Ok text /\
    Filter_inline show f = Ok text' /\
    filled (map show (f_values f)) text text'.
Proof.
  intros [Hwf Hvals] Hfresh. unfold Filter_fresh in Hfresh.
  apply andb_true_iff in Hfresh. destruct Hfresh as [Hop Hps].
  destruct (preds_filled (f_op f) (f_preds f) Hop Hwf Hps)
    as (texts & texts' & Hr & Hi & _ & Hfill).
  unfold Filter_render, Filter_inline. rewrite Hr, Hi, Hvals. cbn [rbind].
  destruct (String.eqb (f_op f) Filter_OR).
  - do 2 eexists. split; [reflexivity|]. split; [reflexivity|].
    apply filled_literal; [lacks_tac|].
    apply filled_app_text; [exact Hfill | lacks_tac].
  - now do 2 eexists.
Qed.

Lemma Join_filled (j : Join) :
  Join_wf j -> Join_fresh c j = true ->
  exists text text',
    Join_render ph j = Ok text /\
    Join_inline show j = Ok text' /\
    filled (map show (j_values j)) text text'.
Proof.
  unfold Join_wf, Join_fresh, Join_inline, Join_render.
  intros Hwf Hfresh.
  apply andb_true_iff in Hfresh. destruct Hfresh as [Hfresh Hcond].
  apply andb_true_iff in Hfresh. destruct Hfresh as [Hfresh Halias].
  apply andb_true_iff in Hfresh. destruct Hfresh as [Hhow Hname].
  destruct (truthy_col (j_left_col j)).
  - rewrite Hwf.
    apply andb_true_iff in Hcond. destruct Hcond as [Hcond Hright].
    apply andb_true_iff in Hcond. destruct Hcond as [Hcond Hop].
    apply andb_true_iff in Hcond. destruct Hcond as [Hprev Hleft].
    destruct (truthy (j_alias j)); cbn [rbind];
      (do 2 eexists; split; [reflexivity|]; split; [reflexivity|]);
      apply filled_text; unfold quoted; lacks_tac.
  - destruct Hwf as (preds & Hpreds & Hwf & Hvals).
    rewrite Hpreds in Hcond |- *. rewrite Hvals.
    assert (Hand : lacks c " AND " = true) by (apply lacks_fixed; reflexivity).
    destruct (preds_filled " AND " preds Hand Hwf Hcond)
      as (texts & texts' & Hr & Hi & _ & Hfill).
    rewrite Hr, Hi.
    destruct (truthy (j_alias j)); cbn [rbind];
      (do 2 eexists; split; [reflexivity|]; split; [reflexivity|]);
      unfold quoted; rewrite ?append_assoc_s;
      repeat (apply filled_literal; [lacks_tac|]); exact Hfill.
Qed.

Lemma Stage_filled (stage : Stage) :
  Stage_wf stage -> Stage_fresh c stage = true ->
  exists text text',
    Stage_render ph stage = Ok text /\
    Stage_inline show stage = Ok text' /\
    filled (map show (stage_values stage)) text text'.
Proof.
  intros Hwf Hfresh.
  destruct stage; try (apply Filter_filled; assumption);
    try (apply Join_filled; assumption);
    cbn [Stage_fresh Stage_inline Stage_render stage_values map] in *;
    (do 2 eexists; split; [reflexivity|]; split; [reflexivity|]);
    now apply filled_text.
Qed.

(** *** The render loop *)

Lemma filled_nil_app ts t t' s s' :
  filled [] t t' -> filled ts s s' -> filled ts (t ++ s) (t' ++ s').
Proof. intros Ht Hs. exact (filled_app _ _ _ Ht _ _ _ Hs). Qed.

Lemma filled_app_nil ts t t' s s' :
  filled ts s s' -> filled [] t t' -> filled ts (s ++ t) (s' ++ t').
Proof.
  intros Hs Ht. rewrite <- (app_nil_r ts). now apply filled_app.
Qed.

Lemma head_cases q :
  head_ok q = true ->
  q = EmptyString \/ (exists s, q = " " ++ s) \/
  (exists s, q = "FROM " ++ s) \/ (exists s, q = "SELECT " ++ s).
Proof.
  unfold head_ok. rewrite !orb_true_iff, String.eqb_eq.
  intros [[[H|H]|H]|H]; [now left | right; left | right; right; left
                        | right; right; right];
    apply prefix_split in H; eexists; exact H.
Qed.

Lemma head_ok_app q x :
  head_ok q = true -> head_ok (q ++ String " " x) = true.
Proof.
  intros H. destruct (head_cases q H) as [->|[[s ->]|[[s ->]|[s ->]]]];
    unfold head_ok; cbn; now rewrite ?prefix_nil.
Qed.

(** A text and its filled form start alike. *)
Lemma filled_head ts q q' :
  filled ts q q' -> head_ok q = true ->
  String.prefix "SELECT " q' = String.prefix "SELECT " q /\
  String.prefix "SELECT" q' = String.prefix "SELECT" q /\
  (String.prefix "SELECT " q = true ->
   filled ts (drop 7 q) (drop 7 q')).
Proof.
  intros H Hh.
  destruct (head_cases q Hh) as [->|[[s ->]|[[s ->]|[s ->]]]].
  - apply filled_empty in H. destruct H as [-> ->].
    repeat split. discriminate.
  - apply filled_strip in H; [|lacks_tac]. destruct H as [s' [-> H]].
    repeat split. discriminate.
  - apply filled_strip in H; [|lacks_tac]. destruct H as [s' [-> H]].
    repeat split. discriminate.
  - apply filled_strip in H; [|lacks_tac]. destruct H as [s' [-> H]].
    rewrite !(prefix_app "SELECT ").
    repeat split; try reflexivity. intros _. exact H.
Qed.

Ltac head_tac := unfold head_ok; cbn; now rewrite ?prefix_nil.

Lemma render_step_filled stage prev text text' q q' vs :
  filled (map show vs) q q' -> head_ok q = true ->
  filled (map show (stage_values stage)) text text' ->
  (is_Table stage = true -> vs = []) ->
  snd (render_step stage prev text' q' vs)
  = snd (render_step stage prev text q vs) /\
  filled (map show (snd (render_step stage prev text q vs)))
         (fst (render_step stage prev text q vs))
         (fst (render_step stage prev text' q' vs)) /\
  head_ok (fst (render_step stage prev text q vs)) = true.
Proof.
  intros Hq Hh Ht Htab.
  destruct stage; cbn [render_step stage_values is_Table map] in *.
  - (* Table *)
    rewrite (Htab eq_refl) in *. cbn [map fst snd] in *.
    split; [reflexivity|]. split; [|head_tac].
    unfold quoted. do 2 (apply filled_literal; [lacks_tac|]).
    apply filled_app_text; [exact Ht | lacks_tac].
  - (* Projection *)
    cbn [fst snd]. split; [reflexivity|]. split; [|head_tac].
    apply filled_literal; [lacks_tac|]. apply filled_nil_app; [exact Ht|].
    apply filled_literal; [lacks_tac | exact Hq].
  - (* Filter *)
    cbn [fst snd]. split; [reflexivity|]. split; [|now apply head_ok_app].
    rewrite map_app. apply filled_app; [exact Hq|].
    apply filled_literal; [lacks_tac|].
    apply filled_literal; [destruct prev as [[]|]; lacks_tac|].
    apply filled_literal; [lacks_tac | exact Ht].
  - (* Group *)
    cbn [fst snd]. split; [reflexivity|]. split; [|now apply head_ok_app].
    apply filled_app_nil; [exact Hq|].
    apply filled_literal; [lacks_tac | exact Ht].
  - (* Aggregation *)
    cbn [fst snd]. split; [reflexivity|]. split; [|head_tac].
    apply filled_literal; [lacks_tac|]. apply filled_nil_app; [exact Ht|].
    apply filled_literal; [lacks_tac | exact Hq].
  - (* Order *)
    cbn [fst snd]. split; [reflexivity|]. split; [|now apply head_ok_app].
    apply filled_app_nil; [exact Hq|].
    apply filled_literal; [lacks_tac | exact Ht].
  - (* Limit *)
    cbn [fst snd]. split; [reflexivity|]. split; [|now apply head_ok_app].
    apply filled_app_nil; [exact Hq|].
    apply filled_literal; [lacks_tac | exact Ht].
  - (* Offset *)
    cbn [fst snd]. split; [reflexivity|]. split; [|now apply head_ok_app].
    apply filled_app_nil; [exact Hq|].
    apply filled_literal; [lacks_tac | exact Ht].
  - (* Count *)
    assert (Hsub :
      filled (map show vs) ("SELECT " ++ text ++ " FROM (" ++ q ++ ") AS tmp")
             ("SELECT " ++ text' ++ " FROM (" ++ q' ++ ") AS tmp")).
    { apply filled_literal; [lacks_tac|]. apply filled_nil_app; [exact Ht|].
      apply filled_literal; [lacks_tac|].
      apply filled_app_text; [exact Hq | lacks_tac]. }
    assert (Hsel :
      filled (map show vs) ("SELECT " ++ text ++ " " ++ q)
             ("SELECT " ++ text' ++ " " ++ q')).
    { apply filled_literal; [lacks_tac|]. apply filled_nil_app; [exact Ht|].
      apply filled_literal; [lacks_tac | exact Hq]. }
    destruct prev as [[]|]; cbn [fst snd];
      (split; [reflexivity|]; split; [assumption | head_tac]).
  - (* Unique *)
    destruct (filled_head _ _ _ Hq Hh) as (Hp & _ & Hdrop).
    unfold startswith, sub_prefix, startswith. rewrite Hp.
    destruct (String.prefix "SELECT " q) eqn:Hsel; cbn [fst snd];
      (split; [reflexivity|]; split; [|head_tac]).
    + apply filled_literal; [lacks_tac|]. now apply Hdrop.
    + apply filled_literal; [lacks_tac | exact Hq].
  - (* Join *)
    cbn [fst snd]. split; [reflexivity|]. split; [|now apply head_ok_app].
    rewrite map_app. apply filled_app; [exact Hq|].
    apply filled_literal; [lacks_tac | exact Ht].
  - (* CountUnique *)
    destruct (truthy_cols cols); cbn [fst snd];
      (split; [reflexivity|]; split; [|head_tac]).
    + apply filled_literal; [lacks_tac|]. apply filled_nil_app; [exact Ht|].
      apply filled_literal; [lacks_tac | exact Hq].
    + apply filled_literal; [lacks_tac|]. apply filled_nil_app; [exact Ht|].
      apply filled_literal; [lacks_tac|].
      apply filled_app_text; [exact Hq | lacks_tac].
Qed.

Lemma tables_lead_step vs stage l :
  tables_lead vs (stage :: l) ->
  (is_Table stage = true -> vs = []) /\
  tables_lead (vs ++ stage_values stage) l.
Proof.
  destruct stage; cbn [tables_lead is_Table stage_values];
    try (intros H; split; [discriminate | exact H]).
  intros [-> H]. split; [reflexivity | exact H].
Qed.

Lemma render_loop_filled l : forall q q' vs prev,
  filled (map show vs) q q' -> head_ok q = true ->
  Forall Stage_wf l ->
  forallb (Stage_fresh c) l = true ->
  tables_lead vs l ->
  exists qf qf' vf,
    render_loop ph l q vs prev = Ok (qf, vf) /\
    inline_loop show l q' vs prev = Ok (qf', vf) /\
    filled (map show vf) qf qf' /\ head_ok qf = true.
Proof.
  induction l as [|stage l IH]; intros q q' vs prev Hq Hh Hwf Hfresh Hlead.
  - exists q, q', vs. now repeat split.
  - inversion Hwf as [|s0 l0 Hs Hl]; subst.
    cbn [forallb] in Hfresh. apply andb_true_iff in Hfresh.
    destruct Hfresh as [Hfs Hfl].
    apply tables_lead_step in Hlead. destruct Hlead as [Htab Hlead].
    destruct (Stage_filled stage Hs Hfs) as (text & text' & Hr & Hi & Ht).
    destruct (render_step_filled stage prev text text' q q' vs Hq Hh Ht Htab)
      as (Hv & Hf & Hh1).
    pose proof (render_step_values stage prev text q vs) as Hv1.
    cbn [render_loop inline_loop]. rewrite Hr, Hi. cbn [rbind].
    destruct (render_step stage prev text q vs) as [q1 v1].
    destruct (render_step stage prev text' q' vs) as [q1' v1'].
    cbn [fst snd] in *. subst v1' v1.
    apply IH; assumption.
Qed.

(** C1 (as amended). Take a Query that has a table, whose Table stages come
    before any stage that binds a value, whose predicates and Joins are
    well formed, and a placeholder token whose first character occurs
    neither in the fixed SQL text nor in the text any clause renders around
    its placeholders.  Then [render] returns a pair: the bound values are
    those of the Filter and Join stages concatenated in stage order, their
    number is the number of occurrences of the placeholder in the text, and
    filling the occurrences left to right with the values gives the text in
    which every predicate shows its own right-hand operand. *)
Theorem render_binds_in_order :
  forall (q : Query),
    tables q <> [] ->
    Forall Stage_wf (stages q) ->
    tables_lead [] (stages q) ->
    forallb (Stage_fresh c) (stages q) = true ->
    exists text text',
      fst (Query_render ph q) = Ok (text, gathered (stages q)) /\
      count text ph = List.length (gathered (stages q)) /\
      Query_inline show q = Ok text' /\
      fill ph (map show (gathered (stages q))) text = Some text'.
Proof.
  intros q Htables Hwf Hlead Hfresh.
  assert (H0 : filled (map show []) EmptyString EmptyString) by constructor.
  destruct (render_loop_filled (stages q) EmptyString EmptyString [] None
              H0 eq_refl Hwf Hfresh Hlead)
    as (qf & qf' & vf & Hr & Hi & Hf & Hh).
  pose proof (render_loop_values _ _ _ _ _ _ _ Hr) as Hvf. cbn [app] in Hvf.
  subst vf.
  destruct (filled_head _ _ _ Hf Hh) as (_ & Hp & _).
  assert (Hfin : filled (map show (gathered (stages q)))
                        (render_finish qf) (render_finish qf')).
  { unfold render_finish, startswith. rewrite Hp.
    destruct (String.prefix "SELECT" qf); cbn [negb]; [exact Hf|].
    apply filled_literal; [lacks_tac | exact Hf]. }
  exists (render_finish qf), (render_finish qf').
  rewrite Query_render_run. cbn [fst].
  destruct (tables q) as [|t ts]; [congruence|].
  rewrite Hr. cbn [rbind].
  split; [reflexivity|].
  split; [rewrite (filled_count _ _ _ Hfin); apply length_map|].
  split; [unfold Query_inline; now rewrite Hi|].
  now apply filled_fill.
Qed.

End Binding.

(* ------------------------------------------------------------------ *)
(** * Instances on concrete queries *)

Section Instances.

Import SpecValidate.

Lemma append_Aggregation_after_Projection_witness :
  forallb (fun s => negb (folds s))
          [SFilter (Filter_init [x_is_one] Filter_AND); SUnique; SLimit 5]
  = true /\
  Query_append (SAggregation count_n)
    (snd (Query_extend
            (SProjection [CStr "a"]
               :: [SFilter (Filter_init [x_is_one] Filter_AND); SUnique;
                   SLimit 5])
            (mkQuery [STable "t"] ["t"])))
  = (Raise (InvalidQuery "cannot have Aggregation after Projection"),
     snd (Query_extend
            (SProjection [CStr "a"]
               :: [SFilter (Filter_init [x_is_one] Filter_AND); SUnique;
                   SLimit 5])
            (mkQuery [STable "t"] ["t"]))).
Proof.
  split; [reflexivity|].
  apply (proj2 append_Aggregation_after_Projection [CStr "a"]
           [SFilter (Filter_init [x_is_one] Filter_AND); SUnique; SLimit 5]
           count_n (mkQuery [STable "t"] ["t"])).
  reflexivity.
Defined.

(** [Query("t")] with [Projection(["a"])] appended and then either
    [CountUnique()] or [Unique()] and [Count()]: the Projection is folded
    into a CountUnique, and the Aggregation appended afterwards is accepted
    although a Projection was appended before it. *)
Lemma append_Aggregation_after_folded_Projection_counterexample :
  build "t" [Projection_init [CStr "a"]; CountUnique_init None; agg_count_n]
  = Ok (Ok tt,
        mkQuery [STable "t"; SCountUnique (Some [CStr "a"]);
                 SAggregation
                   (mkAggregation [("COUNT", Some (CStr "*"), Some "n")] [])]
                ["t"]) /\
  build "t" [Projection_init [CStr "a"]; Ok SUnique; Ok SCount; agg_count_n]
  = Ok (Ok tt,
        mkQuery [STable "t"; SCountUnique (Some [CStr "a"]);
                 SAggregation
                   (mkAggregation [("COUNT", Some (CStr "*"), Some "n")] [])]
                ["t"]) /\
  ~ (exists q,
       build "t" [Projection_init [CStr "a"]; CountUnique_init None;
                  agg_count_n]
       = Ok (Raise (InvalidQuery "cannot have Aggregation after Projection"),
             q)).
Proof.
  split; [reflexivity|]. split; [reflexivity|].
  intros [q H]. vm_compute in H. discriminate.
Qed.

Lemma render_later_Table_resets_witness :
  [("a" : string); "b"] <> [] /\
  render_loop "?" [STable "a"; SFilter (Filter_init [x_is_one] Filter_AND)]
              EmptyString [] None
  = Ok ("FROM " ++ quoted "a" ++ " WHERE (" ++ quoted "x" ++ " = ?)", [PInt 1]) /\
  fst (Query_render "?"
         (mkQuery ([STable "a"; SFilter (Filter_init [x_is_one] Filter_AND)]
                   ++ STable "b" :: []) ["a"; "b"]))
  = Ok ("SELECT * FROM " ++ quoted "b", [PInt 1]).
Proof.
  split; [discriminate|]. split; [reflexivity|].
  apply (render_later_Table_resets "?"
           [STable "a"; SFilter (Filter_init [x_is_one] Filter_AND)] []
           "b" ["a"; "b"]
           ("FROM " ++ quoted "a" ++ " WHERE (" ++ quoted "x" ++ " = ?)")
           [PInt 1]);
    [discriminate | reflexivity].
Defined.

Lemma null_identity_predicate_witness :
  validate_path (stripped "age") = true /\
  exists pred,
    Predicate_init (CStr "age") "IS" PNone = Ok pred /\
    p_values pred = [] /\
    Predicate_render "?" pred = Raise (InvalidComparisonOperator "IS").
Proof.
  split; [reflexivity|].
  apply (null_identity_predicate_fails_to_render "age" "IS" "?");
    [reflexivity | left; reflexivity].
Defined.

Lemma null_string_identity_witness :
  validate_path (stripped "age") = true /\
  exists pred,
    Predicate_init (CStr "age") "IS" (PStr "NULL") = Ok pred /\
    p_values pred = [] /\
    Predicate_render "?" pred = Raise (InvalidComparisonOperator "IS").
Proof.
  split; [reflexivity|].
  apply (null_string_identity_fails_to_render "age" "IS" "NULL" "?");
    [reflexivity | left; reflexivity | left; reflexivity].
Defined.

(** With [=] the string ["null"] gives the predicate that [None] gives. *)
Example null_string_equals_renders :
  Predicate_init (CStr "age") "=" (PStr "null")
  = Ok (mkPredicate (CStr "age") "=" (PStr "null") []) /\
  Predicate_init (CStr "age") "=" PNone
  = Ok (mkPredicate (CStr "age") "=" (PStr "NULL") []) /\
  forall ph,
    Predicate_render ph (mkPredicate (CStr "age") "=" (PStr "null") [])
    = Ok ("(" ++ quoted "age" ++ " IS NULL)").
Proof. repeat split. Qed.

(** [Predicate("labels[*]", "=", "x")] is a LIKE comparison that binds
    ["%x%"]. *)
Lemma list_property_predicate_witness :
  Predicate_init (CStr "labels[*]") "=" (PStr "x")
  = Ok (mkPredicate (CStr "labels") "LIKE" (PStr "%x%") [PStr "%x%"]) /\
  ("=" = "=" ->
   forall ph,
     Predicate_render ph
       (mkPredicate (CStr "labels") "LIKE" (PStr "%x%") [PStr "%x%"])
     = Ok ("(" ++ quoted "labels" ++ " LIKE " ++ ph ++ ")")).
Proof.
  apply (list_property_predicate "labels[*]" "=" "x"); reflexivity.
Defined.

(** A right-hand string spelled ["Null"] is neither wrapped nor treated as
    null, and an integer makes the constructor raise. *)
Lemma list_property_predicate_counterexample :
  Predicate_init (CStr "labels[*]") "=" (PStr "Null")
  = Ok (mkPredicate (CStr "labels") "=" (PStr "Null") [PStr "Null"]) /\
  Predicate_render "?" (mkPredicate (CStr "labels") "=" (PStr "Null") [PStr "Null"])
  = Ok ("(" ++ quoted "labels" ++ " = ?)") /\
  Predicate_init (CStr "labels[*]") "=" (PInt 5) = Raise AttributeError.
Proof. repeat split; reflexivity. Qed.

Lemma projection_unique_count_folds_witness :
  validate_path "a" = true /\ validate_path "b" = true /\
  Query_extend projection_unique_count (mkQuery [STable "t"] ["t"])
  = (Ok tt, mkQuery [STable "t"; SCountUnique (Some [CStr "a"; CStr "b"])] ["t"]).
Proof.
  split; [reflexivity|]. split; [reflexivity|].
  apply (projection_unique_count_folds (mkQuery [STable "t"] ["t"]));
    reflexivity.
Defined.

(** In the order Unique, Projection, Count nothing is folded: the three
    stages stay, and the Projection's SELECT clause shows in the text. *)
Lemma unique_projection_count_counterexample :
  Query_extend unique_projection_count (mkQuery [STable "t"] ["t"])
  = (Ok tt,
     mkQuery [STable "t"; SUnique; SProjection [CStr "a"; CStr "b"]; SCount]
             ["t"]) /\
  fst (Query_render "?"
         (snd (Query_extend unique_projection_count (mkQuery [STable "t"] ["t"]))))
  = Ok ("SELECT COUNT(*) AS " ++ quoted "count"
          ++ " SELECT " ++ quoted "a" ++ ", " ++ quoted "b"
          ++ " SELECT DISTINCT * FROM " ++ quoted "t", []).
Proof. split; reflexivity. Qed.

Lemma grouped_aggregation_renders_witness :
  validate_name "events" = true /\ validate_path "type" = true /\
  (exists q,
     events_projected_grouped
     = Ok (Raise (InvalidQuery "cannot have Aggregation after Projection"), q)) /\
  (exists q,
     events_grouped = Ok (Ok tt, q) /\
     fst (Query_render "?" q)
     = Ok ("SELECT " ++ quoted "type" ++ ", COUNT(*) AS " ++ quoted "n"
             ++ " FROM " ++ quoted "events"
             ++ " GROUP BY " ++ quoted "type", [])).
Proof.
  split; [reflexivity|]. split; [reflexivity|].
  apply grouped_aggregation_renders; reflexivity.
Defined.

(** With the Projection in place the Aggregation cannot be appended, so no
    query is built and nothing renders. *)
Lemma events_projected_grouped_counterexample :
  events_projected_grouped
  = Ok (Raise (InvalidQuery "cannot have Aggregation after Projection"),
        mkQuery [STable "events"; SProjection [CStr "type"]; SGroup [CStr "type"]]
                ["events"]) /\
  ~ (exists q, events_projected_grouped = Ok (Ok tt, q)).
Proof.
  split; [reflexivity|]. intros [q H]. vm_compute in H. discriminate.
Qed.

Lemma append_equal_Join_dropped_witness :
  Join_eq (join_ab (Some "a")) (join_ab (Some "a")) = true /\
  Query_append (SJoin (join_ab (Some "a")))
               (mkQuery ([STable "a"] ++ [SJoin (join_ab (Some "a"))]) ["a"])
  = (Ok tt, mkQuery ([STable "a"] ++ [SJoin (join_ab (Some "a"))]) ["a"]).
Proof.
  split; [reflexivity|].
  apply (append_equal_Join_dropped [STable "a"] ["a"]
           (join_ab (Some "a")) (join_ab (Some "a"))).
  reflexivity.
Defined.

(** Two Joins built from the same arguments without [lhs]: the first is
    stored with its left-hand table resolved, the second differs from it in
    that field, is kept, and the text holds two JOIN clauses. *)
Lemma append_same_Join_counterexample :
  build "a" [join_b None; join_b None]
  = Ok (Ok tt,
        mkQuery [STable "a"; SJoin (join_ab (Some "a")); SJoin (join_ab (Some "b"))]
                ["a"]) /\
  (exists text,
     fst (Query_render "?"
            (mkQuery [STable "a"; SJoin (join_ab (Some "a"));
                      SJoin (join_ab (Some "b"))] ["a"]))
     = Ok (text, []) /\
     count text "JOIN" = 2).
Proof.
  split; [reflexivity|]. eexists. split; reflexivity.
Qed.

Lemma render_binds_in_order_witness :
  lacks "%" sql_chars = true /\
  tables people_query <> [] /\
  Forall Stage_wf (stages people_query) /\
  tables_lead [] (stages people_query) /\
  forallb (Stage_fresh "%") (stages people_query) = true /\
  exists text text',
    fst (Query_render "%s" people_query)
    = Ok (text, gathered (stages people_query)) /\
    count text "%s" = List.length (gathered (stages people_query)) /\
    Query_inline show_value people_query = Ok text' /\
    fill "%s" (map show_value (gathered (stages people_query))) text
    = Some text'.
Proof.
  assert (Hwf : Forall Stage_wf (stages people_query)).
  { unfold people_query. cbn [stages]. repeat constructor. }
  assert (Hlead : tables_lead [] (stages people_query)).
  { unfold people_query. cbn. repeat split. }
  split; [reflexivity|]. split; [discriminate|].
  split; [exact Hwf|]. split; [exact Hlead|]. split; [reflexivity|].
  apply (render_binds_in_order "%" "s" eq_refl show_value people_query);
    [discriminate | exact Hwf | exact Hlead | reflexivity].
Defined.

(** What the witness computes to. *)
Example people_query_rendered :
  fst (Query_render "%s" people_query)
  = Ok ("SELECT " ++ quoted "name" ++ " FROM " ++ quoted "people"
          ++ " WHERE ((" ++ quoted "age" ++ " > %s) OR ("
          ++ quoted "name" ++ " IN (%s, %s))) LIMIT 5",
        [PInt 30; PStr "a"; PStr "b"]) /\
  Query_inline show_value people_query
  = Ok ("SELECT " ++ quoted "name" ++ " FROM " ++ quoted "people"
          ++ " WHERE ((" ++ quoted "age" ++ " > 30) OR ("
          ++ quoted "name" ++ " IN ('a', 'b'))) LIMIT 5").
Proof. split; reflexivity. Qed.

(** [render] raises on a Query without a table; a Table stage appended
    after a Filter drops the Filter's text but keeps its value; a sequence
    compared with [=] binds two values to one placeholder; and a
    placeholder that is a letter of the SQL text is counted where no value
    belongs. *)
Lemma render_binding_counterexample :
  fst (Query_render "?" (mkQuery [] [])) = Raise (InvalidQuery "no table") /\
  (exists text values,
     fst (Query_render "?" two_tables) = Ok (text, values) /\
     text = "SELECT * FROM " ++ quoted "b" /\
     count text "?" = 0 /\ List.length values = 1) /\
  (exists p text,
     Predicate_init (CStr "x") "=" (PSeq [PInt 1; PInt 2]) = Ok p /\
     Predicate_render "?" p = Ok text /\
     count text "?" = 1 /\ List.length (p_values p) = 2) /\
  (exists p text,
     Predicate_init (CStr "x") "IN" (PStr "ab") = Ok p /\
     Predicate_render "?" p = Ok text /\
     count text "?" = 2 /\ List.length (p_values p) = 1) /\
  (exists j text,
     Join_init "b" (Some (CStr "id")) (Some "=") (Some (CStr "id"))
               (Some [x_is_one]) "INNER" None (Some "a") = Ok j /\
     Join_render "?" j = Ok text /\
     count text "?" = 0 /\ List.length (j_values j) = 1) /\
  (exists text values,
     fst (Query_render "E" (mkQuery [STable "t"] ["t"])) = Ok (text, values) /\
     count text "E" = 2 /\ List.length values = 0).
Proof.
  split; [reflexivity|].
  do 4 (split; [do 2 eexists; repeat split|]).
  do 2 eexists; repeat split.
Qed.

(** A Projection folded into a CountUnique is gone from the sequence, and
    an Aggregation appended afterwards is accepted. *)
Example absorbed_Projection_admits_Aggregation :
  Query_extend
    [SProjection [CStr "a"]; SCountUnique None;
     SAggregation (mkAggregation [("COUNT", Some (CStr "*"), Some "n")] [])]
    (mkQuery [STable "t"] ["t"])
  = (Ok tt,
     mkQuery [STable "t"; SCountUnique (Some [CStr "a"]);
              SAggregation (mkAggregation [("COUNT", Some (CStr "*"), Some "n")] [])]
             ["t"]).
Proof. reflexivity. Qed.

(** The text rendered after the duplicate Join was dropped holds one JOIN
    clause. *)
Example dropped_Join_renders_once :
  exists text,
    fst (Query_render "?"
           (snd (Query_append (SJoin (join_ab (Some "a")))
                   (mkQuery [STable "a"; SJoin (join_ab (Some "a"))] ["a"]))))
    = Ok (text, []) /\
    count text "JOIN" = 1.
Proof. eexists. split; reflexivity. Qed.

End Instances.

(* ------------------------------------------------------------------ *)
(** * Further properties of the Query methods *)

Section Appending.

Context {V : Validate}.

Lemma last_stage_run q :
  last_stage q = (Ok (last (map Some (stages q)) None), q).
Proof. reflexivity. Qed.

Lemma last_Some_split (l : list Stage) x :
  last (map Some l) None = Some x -> l = (removelast l ++ [x])%list.
Proof.
  intros H. destruct l as [|y l]; [discriminate|].
  assert (Hne : y :: l <> []) by discriminate.
  rewrite (app_removelast_last y Hne) at 1. f_equal. f_equal.
  generalize dependent y. induction l as [|z l IH]; intros y H Hne.
  - cbn in H. now injection H.
  - change (last (map Some (z :: l)) None = Some x) in H.
    change (last (z :: l) y = x).
    rewrite (last_cons_default l z y z). apply IH; [exact H | discriminate].
Qed.

Lemma table_names_app l1 l2 :
  table_names (l1 ++ l2) = (table_names l1 ++ table_names l2)%list.
Proof. unfold table_names. apply flat_map_app. Qed.

Lemma table_names_removelast (l : list Stage) x :
  last (map Some l) None = Some x -> is_Table x = false ->
  table_names (removelast l) = table_names l.
Proof.
  intros H Hx. rewrite (last_Some_split l x H) at 2.
  rewrite table_names_app. destruct x; try discriminate; cbn;
    now rewrite app_nil_r.
Qed.

(** [append] keeps the table stack in step with the stage sequence: if the
    stack holds the names of the Table stages in order, it still does after
    any append, whether the append succeeds, drops the stage, folds earlier
    stages or raises. *)
Lemma append_tables_step :
  forall (s : Stage) (q : Query),
    tables q = table_names (stages q) ->
    tables (snd (Query_append s q))
    = table_names (stages (snd (Query_append s q))).
Proof.
  intros s q Hq.
  assert (Hpush : forall x, is_Table x = false ->
    tables (snd (push_stage x q))
    = table_names (stages (snd (push_stage x q)))).
  { intros x Hx. rewrite push_stage_run. cbn [snd stages tables].
    rewrite table_names_app, Hq. destruct x; try discriminate; cbn;
      now rewrite app_nil_r. }
  destruct s; try (apply Hpush; reflexivity);
    unfold Query_append, bind, last_stage, pop_stage, push_stage, push_table,
      get_stages, get_tables, put_stages, put_tables, ret, raise, lift, bind;
    cbn [stages tables fst snd].
  - (* Table *)
    rewrite table_names_app, Hq. reflexivity.
  - (* Aggregation *)
    destruct (existsb is_Projection (stages q)); [exact Hq|].
    destruct (last (map Some (stages q)) None) as [[]|];
      cbn [stages tables fst snd]; rewrite table_names_app, Hq; cbn;
      now rewrite app_nil_r.
  - (* Count *)
    destruct (last (map Some (stages q)) None) as [x|] eqn:Hlast;
      [|cbn [stages tables fst snd]; rewrite table_names_app, Hq; cbn;
        now rewrite app_nil_r].
    destruct x;
      try (cbn [stages tables fst snd]; rewrite table_names_app, Hq; cbn;
           now rewrite app_nil_r).
    pose proof (table_names_removelast _ _ Hlast eq_refl) as H1.
    destruct (last (map Some (removelast (stages q))) None) as [x|] eqn:Hl2.
    + destruct x;
        try (unfold CountUnique_init; cbn [riter rbind stages tables fst snd];
             rewrite table_names_app, H1, Hq; cbn; now rewrite app_nil_r).
      pose proof (table_names_removelast _ _ Hl2 eq_refl) as H2.
      unfold CountUnique_init.
      destruct (riter _validate_column cols); cbn [rbind snd stages tables].
      * rewrite table_names_app, H2, H1, Hq. cbn. now rewrite app_nil_r.
      * now rewrite H2, H1.
    + unfold CountUnique_init. cbn [riter rbind stages tables fst snd].
      rewrite table_names_app, H1, Hq. cbn. now rewrite app_nil_r.
  - (* Join *)
    destruct (last (map Some (stages q)) None) as [[]|];
      cbn [stages tables fst snd]; try exact Hq;
      try (rewrite table_names_app, Hq; cbn; now rewrite app_nil_r).
    destruct (Join_eq j0 j); cbn [stages tables fst snd]; [exact Hq|].
    rewrite table_names_app, Hq. cbn. now rewrite app_nil_r.
  - (* CountUnique *)
    destruct (last (map Some (stages q)) None) as [x|] eqn:Hlast;
      [|cbn [stages tables fst snd]; rewrite table_names_app, Hq; cbn;
        now rewrite app_nil_r].
    destruct x;
      try (cbn [stages tables fst snd]; rewrite table_names_app, Hq; cbn;
           now rewrite app_nil_r).
    pose proof (table_names_removelast _ _ Hlast eq_refl) as H1.
    cbn [stages tables fst snd]. rewrite table_names_app, H1, Hq. cbn.
    now rewrite app_nil_r.
Qed.

Lemma extend_tables_step (l : list Stage) : forall q,
  tables q = table_names (stages q) ->
  tables (snd (Query_extend l q))
  = table_names (stages (snd (Query_extend l q))).
Proof.
  induction l as [|s l IH]; intros q Hq; [exact Hq|].
  rewrite Query_extend_cons.
  pose proof (append_tables_step s q Hq) as H.
  destruct (Query_append s q) as [[[]|e] q1]; cbn [snd] in *;
    [now apply IH | exact H].
Qed.

Lemma Query_init_tables arg q :
  Query_init arg = Ok q -> tables q = table_names (stages q).
Proof.
  unfold Query_init. intros H.
  assert (H0 : tables (mkQuery [] []) = table_names (stages (mkQuery [] [])))
    by reflexivity.
  destruct arg as [|name|l].
  - cbn in H. now injection H as <-.
  - unfold bind, lift, Table_init in H.
    destruct (check_name name); cbn [rbind] in H; [|discriminate].
    pose proof (append_tables_step (STable name) _ H0) as H1.
    destruct (Query_append (STable name) (mkQuery [] [])) as [[[]|e] q1];
      [|discriminate].
    now injection H as <-.
  - pose proof (extend_tables_step l _ H0) as H1.
    destruct (Query_extend l (mkQuery [] [])) as [[[]|e] q1]; [|discriminate].
    now injection H as <-.
Qed.

(** X1. On every Query obtained from the constructor, with any argument,
    and any further [extend] calls, the table stack holds exactly the names
    of the Table stages of the stage sequence, in order -- also after an
    append was dropped, folded earlier stages, or raised. *)
Theorem built_Query_tables_in_step :
  forall (arg : query_arg) (l : list Stage) (q : Query),
    Query_init arg = Ok q ->
    tables (snd (Query_extend l q))
    = table_names (stages (snd (Query_extend l q))).
Proof.
  intros arg l q H. apply extend_tables_step. now apply (Query_init_tables arg).
Qed.

End Appending.

(* ------------------------------------------------------------------ *)
(** * Further properties of rendering *)

Section Rendering.

Lemma same_outcome_bind {A A' B B'} (r : result A) (r' : result A')
    (k : A -> result B) (k' : A' -> result B') :
  same_outcome r r' ->
  (forall a a', same_outcome (k a) (k' a')) ->
  same_outcome (rbind r k) (rbind r' k').
Proof.
  destruct r, r'; cbn; intros H Hk; try contradiction; [apply Hk | exact H].
Qed.

Lemma same_outcome_rmap {A B B'} (f : A -> result B) (g : A -> result B') l :
  (forall x, same_outcome (f x) (g x)) ->
  same_outcome (rmap f l) (rmap g l).
Proof.
  intros H. induction l as [|x l IH]; [exact I|].
  cbn [rmap]. apply same_outcome_bind; [apply H|].
  intros y y'. apply same_outcome_bind; [exact IH|]. intros; exact I.
Qed.

Lemma Predicate_render_same ph ph' p :
  same_outcome (Predicate_render ph p) (Predicate_render ph' p).
Proof.
  unfold Predicate_render.
  destruct (is_null_str (p_rhs p)).
  - destruct (mem (p_op p) ["!="; "<>"]); [exact I|].
    destruct (String.eqb (p_op p) "="); [exact I | reflexivity].
  - destruct (p_rhs p); try exact I;
      destruct (String.eqb (p_op p) "IN"); cbn; try exact I; reflexivity.
Qed.

Lemma Stage_render_same ph ph' s :
  same_outcome (Stage_render ph s) (Stage_render ph' s).
Proof.
  destruct s; try exact I; cbn [Stage_render].
  - unfold Filter_render. apply same_outcome_bind.
    + apply same_outcome_rmap. intros; apply Predicate_render_same.
    + intros. destruct (String.eqb (f_op f) Filter_OR); exact I.
  - unfold Join_render.
    destruct (truthy (j_alias j)); (apply same_outcome_bind; [|intros; exact I]);
      (destruct (truthy_col (j_left_col j)); [exact I|]);
      (destruct (j_preds j); [|reflexivity]);
      (apply same_outcome_bind; [|intros; exact I]);
      apply same_outcome_rmap; intros; apply Predicate_render_same.
Qed.

(** The loop raises exactly when the [render] of some stage does, and then
    the exception of the first such stage. *)
Lemma render_loop_outcome ph l : forall query values prev,
  same_outcome (render_loop ph l query values prev)
               (rmap (Stage_render ph) l).
Proof.
  induction l as [|s l IH]; intros query values prev; [exact I|].
  cbn [render_loop rmap].
  destruct (Stage_render ph s) as [text|e]; cbn [rbind]; [|reflexivity].
  destruct (render_step s prev text query values) as [q1 v1].
  specialize (IH q1 v1 (Some s)).
  destruct (render_loop ph l q1 v1 (Some s)), (rmap (Stage_render ph) l);
    cbn in *; assumption.
Qed.

Lemma rmap_raise {A B} (f : A -> result B) l e :
  rmap f l = Raise e -> exists x, In x l /\ f x = Raise e.
Proof.
  induction l as [|x l IH]; [discriminate|].
  cbn [rmap]. destruct (f x) as [y|e'] eqn:Hx; cbn [rbind].
  - destruct (rmap f l) as [ys|e'']; cbn [rbind]; [discriminate|].
    intros H. injection H as ->. destruct (IH eq_refl) as [x' [Hin Hx']].
    exists x'. split; [now right | exact Hx'].
  - intros H. injection H as ->. exists x. split; [now left | exact Hx].
Qed.

Lemma Predicate_render_exn ph p e :
  Predicate_render ph p = Raise e ->
  e = TypeError \/ e = InvalidComparisonOperator (p_op p).
Proof.
  unfold Predicate_render.
  destruct (is_null_str (p_rhs p)).
  - destruct (mem (p_op p) ["!="; "<>"]); [discriminate|].
    destruct (String.eqb (p_op p) "="); [discriminate|].
    intros H. injection H as <-. now right.
  - destruct (p_rhs p); try discriminate;
      destruct (String.eqb (p_op p) "IN"); cbn; try discriminate;
      intros H; injection H as <-; now left.
Qed.

Lemma preds_render_exn ph preds e :
  rmap (Predicate_render ph) preds = Raise e ->
  e = TypeError \/ exists op, e = InvalidComparisonOperator op.
Proof.
  intros H. apply rmap_raise in H. destruct H as [p [_ H]].
  apply Predicate_render_exn in H. destruct H as [->| ->];
    [now left | right; now eexists].
Qed.

Lemma Stage_render_exn ph s e :
  Stage_render ph s = Raise e ->
  has_predicates s = true /\
  (e = TypeError \/ exists op, e = InvalidComparisonOperator op).
Proof.
  destruct s; try discriminate; cbn [Stage_render has_predicates];
    intros H; (split; [reflexivity|]).
  - unfold Filter_render in H.
    destruct (rmap (Predicate_render ph) (f_preds f)) eqn:Hp; cbn [rbind] in H.
    + destruct (String.eqb (f_op f) Filter_OR); discriminate.
    + injection H as <-. now apply (preds_render_exn ph (f_preds f)).
  - unfold Join_render in H.
    destruct (truthy (j_alias j));
      (destruct (truthy_col (j_left_col j)); [discriminate|]);
      (destruct (j_preds j) as [preds|];
         [|cbn in H; injection H as <-; now left]);
      (destruct (rmap (Predicate_render ph) preds) eqn:Hp; cbn [rbind] in H;
         [discriminate|]);
      injection H as <-; now apply (preds_render_exn ph preds).
Qed.

Lemma render_loop_raise ph l query values prev e :
  render_loop ph l query values prev = Raise e ->
  exists s, In s l /\ Stage_render ph s = Raise e.
Proof.
  intros Hr.
  pose proof (render_loop_outcome ph l query values prev) as H.
  rewrite Hr in H.
  destruct (rmap (Stage_render ph) l) as [texts|e'] eqn:Hm;
    cbn in H; [contradiction|]. subst e'.
  now apply rmap_raise in Hm.
Qed.

(** X2. [render] succeeds exactly when the Query has a table on its stack
    and the [render] of every stage succeeds: the fold over the stages
    never raises by itself. *)
Theorem render_succeeds_iff :
  forall (ph : string) (q : Query),
    (exists r, fst (Query_render ph q) = Ok r) <->
    tables q <> [] /\
    exists texts, rmap (Stage_render ph) (stages q) = Ok texts.
Proof.
  intros ph q. rewrite Query_render_run. cbn [fst].
  pose proof (render_loop_outcome ph (stages q) EmptyString [] None) as H.
  destruct (tables q) as [|t ts].
  - split; [intros [r Hr]; discriminate | intros [Hne _]; now elim Hne].
  - destruct (render_loop ph (stages q) EmptyString [] None) as [[query values]|e],
      (rmap (Stage_render ph) (stages q)) as [texts|e'];
      cbn in H; try contradiction; cbn [rbind].
    + split; [intros _; split; [discriminate | now eexists] | intros _; now eexists].
    + split; [intros [r Hr]; discriminate | intros [_ [texts Ht]]; discriminate].
Qed.

(** X3. When [render] raises, the exception is InvalidQuery("no table") on
    an empty table stack, and otherwise the one raised by the [render] of a
    Filter or Join stage of the Query, which is a TypeError or an
    InvalidComparisonOperator. *)
Theorem render_error_origin :
  forall (ph : string) (q : Query) (e : exn),
    fst (Query_render ph q) = Raise e ->
    (tables q = [] /\ e = InvalidQuery "no table") \/
    (tables q <> [] /\
     exists s, In s (stages q) /\ has_predicates s = true /\
               Stage_render ph s = Raise e /\
               (e = TypeError \/ exists op, e = InvalidComparisonOperator op)).
Proof.
  intros ph q e. rewrite Query_render_run. cbn [fst].
  pose proof (render_loop_outcome ph (stages q) EmptyString [] None) as H.
  destruct (tables q) as [|t ts].
  - intros Hr. injection Hr as <-. now left.
  - intros Hr. right. split; [discriminate|].
    destruct (render_loop ph (stages q) EmptyString [] None)
      as [[query values]|e1] eqn:Hloop;
      cbn [rbind] in Hr; [discriminate|].
    injection Hr as ->.
    apply render_loop_raise in Hloop. destruct Hloop as [s [Hin Hs]].
    exists s. pose proof (Stage_render_exn ph s e Hs) as [Hk He].
    now repeat split.
Qed.

(** X4. Whether [render] raises, and which exception, does not depend on
    the placeholder token. *)
Theorem render_failure_ignores_placeholder :
  forall (ph ph' : string) (q : Query) (e : exn),
    fst (Query_render ph q) = Raise e ->
    fst (Query_render ph' q) = Raise e.
Proof.
  intros ph ph' q e. rewrite !Query_render_run. cbn [fst].
  destruct (tables q) as [|t ts]; [trivial|].
  pose proof (render_loop_outcome ph (stages q) EmptyString [] None) as H.
  pose proof (render_loop_outcome ph' (stages q) EmptyString [] None) as H'.
  pose proof (same_outcome_rmap (Stage_render ph) (Stage_render ph') (stages q)
                (Stage_render_same ph ph')) as Hm.
  destruct (render_loop ph (stages q) EmptyString [] None) as [[query values]|e1];
    cbn [rbind]; [discriminate|].
  intros Hr. injection Hr as ->.
  destruct (rmap (Stage_render ph) (stages q)); cbn in H; [contradiction|].
  subst e0.
  destruct (rmap (Stage_render ph') (stages q)); cbn in Hm; [contradiction|].
  subst e0.
  destruct (render_loop ph' (stages q) EmptyString [] None) as [[query values]|e1];
    cbn in H'; [contradiction|]. now subst e1.
Qed.

(** X5. Whenever [render] returns, its text starts with SELECT and its
    bound values are those of the Filter and Join stages of the Query,
    concatenated in stage order -- whatever the placeholder and whatever the
    stages are. *)
Theorem render_output_shape :
  forall (ph : string) (q : Query) (text : string) (values : list pyval),
    fst (Query_render ph q) = Ok (text, values) ->
    startswith text "SELECT" = true /\ values = gathered (stages q).
Proof.
  intros ph q text values. rewrite Query_render_run. cbn [fst].
  destruct (tables q) as [|t ts]; [discriminate|].
  destruct (render_loop ph (stages q) EmptyString [] None) as [[query vs]|e]
    eqn:Hloop; cbn [rbind]; [|discriminate].
  intros H. injection H as <- <-.
  apply render_loop_values in Hloop. cbn [app] in Hloop.
  split; [|exact Hloop].
  unfold render_finish.
  destruct (startswith query "SELECT") eqn:Hs; cbn [negb]; [exact Hs|].
  reflexivity.
Qed.

(** *** Consecutive filters *)

Lemma rmap_app {A B} (f : A -> result B) l1 l2 :
  rmap f (l1 ++ l2)
  = (a <- rmap f l1 ;; b <- rmap f l2 ;; Ok (a ++ b)%list).
Proof.
  induction l1 as [|x l1 IH]; cbn [app rmap rbind].
  - destruct (rmap f l2); reflexivity.
  - destruct (f x); cbn [rbind]; [|reflexivity].
    rewrite IH. destruct (rmap f l1); cbn [rbind]; [|reflexivity].
    destruct (rmap f l2); reflexivity.
Qed.

Lemma rmap_length {A B} (f : A -> result B) l : forall ys,
  rmap f l = Ok ys -> List.length ys = List.length l.
Proof.
  induction l as [|x l IH]; intros ys H.
  - injection H as <-. reflexivity.
  - cbn [rmap] in H. destruct (f x); cbn [rbind] in H; [|discriminate].
    destruct (rmap f l) as [zs|]; cbn [rbind] in H; [|discriminate].
    injection H as <-. cbn. f_equal. now apply IH.
Qed.

Lemma join_app sep (l1 l2 : list string) :
  l1 <> [] -> l2 <> [] ->
  join sep (l1 ++ l2) = join sep l1 ++ sep ++ join sep l2.
Proof.
  intros H1 H2. induction l1 as [|x l1 IH]; [now elim H1|].
  destruct l1 as [|y l1].
  - destruct l2 as [|z l2]; [now elim H2 | reflexivity].
  - change ((x :: y :: l1) ++ l2)%list with (x :: y :: (l1 ++ l2))%list.
    rewrite !join_cons2.
    change (y :: (l1 ++ l2))%list with ((y :: l1) ++ l2)%list.
    rewrite IH by discriminate. now rewrite !append_assoc_s.
Qed.

(** The loop looks at the class of [prev] only. *)
Lemma render_loop_prev_Filter ph l query values f f' :
  render_loop ph l query values (Some (SFilter f))
  = render_loop ph l query values (Some (SFilter f')).
Proof. destruct l as [|s l]; [reflexivity|]. destruct s; reflexivity. Qed.

Lemma render_loop_Filter_split ph preds1 preds2 post query values prev :
  preds1 <> [] -> preds2 <> [] ->
  render_loop ph (SFilter (Filter_init preds1 Filter_AND)
                    :: SFilter (Filter_init preds2 Filter_AND) :: post)
              query values prev
  = render_loop ph (SFilter (Filter_init (preds1 ++ preds2) Filter_AND) :: post)
                query values prev.
Proof.
  intros H1 H2.
  cbn [render_loop Stage_render]. unfold Filter_render.
  cbn [Filter_init f_preds f_op f_values].
  change (String.eqb Filter_AND Filter_OR) with false. cbv iota.
  rewrite rmap_app.
  destruct (rmap (Predicate_render ph) preds1) as [t1|e] eqn:Hr1;
    cbn [rbind render_step f_values]; [|reflexivity].
  destruct (rmap (Predicate_render ph) preds2) as [t2|e] eqn:Hr2;
    cbn [rbind render_step f_values]; [|reflexivity].
  assert (Ht1 : t1 <> []).
  { apply rmap_length in Hr1. destruct t1, preds1; try discriminate.
    now elim H1. }
  assert (Ht2 : t2 <> []).
  { apply rmap_length in Hr2. destruct t2, preds2; try discriminate.
    now elim H2. }
  unfold Filter_init. cbn [f_values].
  rewrite (join_app Filter_AND t1 t2 Ht1 Ht2), flat_map_app, <- app_assoc.
  rewrite (render_loop_prev_Filter ph post _ _ _
             (mkFilter (preds1 ++ preds2) Filter_AND
                (flat_map p_values preds1 ++ flat_map p_values preds2))).
  f_equal. rewrite !append_assoc_s. reflexivity.
Qed.

(** X6. Two consecutive AND filters render as the single AND filter over
    the predicates of both: same text, same bound values, same exception
    if a predicate fails to render -- provided neither filter is empty. *)
Theorem consecutive_Filters_merge :
  forall (ph : string) (pre post : list Stage) (preds1 preds2 : list Predicate)
         (ts : list string),
    preds1 <> [] -> preds2 <> [] ->
    fst (Query_render ph
           (mkQuery (pre ++ SFilter (Filter_init preds1 Filter_AND)
                         :: SFilter (Filter_init preds2 Filter_AND) :: post) ts))
    = fst (Query_render ph
             (mkQuery (pre ++ SFilter (Filter_init (preds1 ++ preds2) Filter_AND)
                           :: post) ts)).
Proof.
  intros ph pre post preds1 preds2 ts H1 H2.
  rewrite !Query_render_run. cbn [fst tables stages].
  destruct ts as [|t ts]; [reflexivity|].
  rewrite !render_loop_app.
  destruct (render_loop ph pre EmptyString [] None) as [[q0 v0]|e];
    cbn [rbind]; [|reflexivity].
  now rewrite render_loop_Filter_split.
Qed.

(** *** The FROM clause *)

Lemma contains_app_r a : forall b sub,
  contains b sub = true -> contains (a ++ b) sub = true.
Proof.
  induction a as [|x a IH]; intros b sub H; [exact H|].
  cbn [append contains]. rewrite (IH b sub H). apply orb_true_r.
Qed.

Lemma contains_app_l a : forall b sub,
  contains a sub = true -> contains (a ++ b) sub = true.
Proof.
  induction a as [|x a IH]; intros b sub H.
  - cbn in H. rewrite orb_false_r in H.
    destruct sub; [|discriminate]. destruct b; reflexivity.
  - cbn [contains] in H. apply orb_true_iff in H. cbn [append contains].
    destruct H as [H|H].
    + change (String x (a ++ b)) with (String x a ++ b).
      now rewrite (prefix_app_r sub (String x a) b H).
    + rewrite (IH b sub H). apply orb_true_r.
Qed.

Lemma contains_self s : contains s s = true.
Proof.
  destruct s as [|x s]; [reflexivity|].
  cbn [contains]. pose proof (prefix_app (String x s) EmptyString) as H.
  rewrite append_nil_r_s in H. now rewrite H.
Qed.

Lemma render_step_keeps_FROM t stage prev text query values :
  is_Table stage = false ->
  contains query ("FROM " ++ quoted t) = true ->
  contains (fst (render_step stage prev text query values))
           ("FROM " ++ quoted t) = true.
Proof.
  intros Hs Hq.
  destruct stage; try discriminate; cbn [render_step].
  - (* Projection *) cbn [fst]. now repeat apply contains_app_r.
  - (* Filter *) cbn [fst]. now apply contains_app_l.
  - (* Group *) cbn [fst]. now apply contains_app_l.
  - (* Aggregation *) cbn [fst]. now repeat apply contains_app_r.
  - (* Order *) cbn [fst]. now apply contains_app_l.
  - (* Limit *) cbn [fst]. now apply contains_app_l.
  - (* Offset *) cbn [fst]. now apply contains_app_l.
  - (* Count *)
    destruct prev as [[]|]; cbn [fst];
      try (now repeat apply contains_app_r).
    do 3 apply contains_app_r. now apply contains_app_l.
  - (* Unique *)
    unfold sub_prefix, startswith.
    destruct (String.prefix "SELECT " query) eqn:Hp; cbn [fst];
      [|now apply contains_app_r].
    apply contains_app_r. apply prefix_split in Hp. rewrite Hp in Hq.
    cbn in Hq. exact Hq.
  - (* Join *) cbn [fst]. now apply contains_app_l.
  - (* CountUnique *)
    destruct (truthy_cols cols); cbn [fst];
      [now repeat apply contains_app_r|].
    do 3 apply contains_app_r. now apply contains_app_l.
Qed.

Lemma render_loop_keeps_FROM ph t l : forall query values prev qf vf,
  existsb is_Table l = false ->
  contains query ("FROM " ++ quoted t) = true ->
  render_loop ph l query values prev = Ok (qf, vf) ->
  contains qf ("FROM " ++ quoted t) = true.
Proof.
  induction l as [|s l IH]; intros query values prev qf vf Hl Hq Hr.
  - cbn in Hr. now injection Hr as <- _.
  - cbn [existsb] in Hl. apply orb_false_iff in Hl. destruct Hl as [Hs Hl].
    cbn [render_loop] in Hr.
    destruct (Stage_render ph s) as [text|e]; cbn [rbind] in Hr; [|discriminate].
    pose proof (render_step_keeps_FROM t s prev text query values Hs Hq) as H1.
    destruct (render_step s prev text query values) as [q1 v1].
    now apply (IH q1 v1 (Some s) qf vf).
Qed.

(** X7. Whenever [render] returns, the text holds the FROM clause of the
    last Table stage of the Query: no stage after it, in any order or
    number, removes or splits that clause. *)
Theorem render_keeps_last_FROM :
  forall (ph : string) (pre post : list Stage) (t : string) (ts : list string)
         (text : string) (values : list pyval),
    existsb is_Table post = false ->
    fst (Query_render ph (mkQuery (pre ++ STable t :: post) ts))
    = Ok (text, values) ->
    contains text ("FROM " ++ quoted t) = true.
Proof.
  intros ph pre post t ts text values Hpost.
  rewrite Query_render_run. cbn [fst tables stages].
  destruct ts as [|t0 ts]; [discriminate|].
  rewrite render_loop_app.
  destruct (render_loop ph pre EmptyString [] None) as [[q0 v0]|e];
    cbn [rbind]; [|discriminate].
  cbn [render_loop Stage_render rbind render_step].
  destruct (render_loop ph post ("FROM " ++ quoted t) v0 (Some (STable t)))
    as [[qf vf]|e] eqn:Hloop; cbn [rbind]; [|discriminate].
  intros H. injection H as <- _.
  pose proof (render_loop_keeps_FROM ph t post _ _ _ _ _ Hpost
                (contains_self _) Hloop) as Hc.
  unfold render_finish. destruct (startswith qf "SELECT"); cbn [negb];
    [exact Hc | now apply contains_app_r].
Qed.

End Rendering.

(* ------------------------------------------------------------------ *)
(** * Further properties of built queries *)

Section Built.

Context {V : Validate}.

Lemma table_names_nil l : table_names l = [] <-> existsb is_Table l = false.
Proof.
  induction l as [|s l IH]; [now split|].
  destruct s; cbn [table_names flat_map existsb is_Table app orb]; try exact IH.
  split; discriminate.
Qed.

(** X8. On a Query obtained from the constructor and any further [extend]
    calls, [render] raises InvalidQuery("no table") exactly when the stage
    sequence holds no Table stage. *)
Theorem no_table_error_iff :
  forall (arg : query_arg) (l : list Stage) (q : Query) (ph : string),
    Query_init arg = Ok q ->
    (existsb is_Table (stages (snd (Query_extend l q))) = false <->
     fst (Query_render ph (snd (Query_extend l q)))
     = Raise (InvalidQuery "no table")).
Proof.
  intros arg l q ph Hq.
  pose proof (extend_tables_step l q (Query_init_tables arg q Hq)) as Hinv.
  rewrite <- table_names_nil, <- Hinv, Query_render_run. cbn [fst].
  destruct (tables (snd (Query_extend l q))) as [|t ts].
  - now split.
  - split; [discriminate|].
    destruct (render_loop ph _ EmptyString [] None) as [[query values]|e]
      eqn:Hloop; cbn [rbind]; [discriminate|].
    intros H. injection H as ->.
    apply render_loop_raise in Hloop. destruct Hloop as [s [_ Hs]].
    apply Stage_render_exn in Hs. destruct Hs as [_ [H|[op H]]]; discriminate.
Qed.

(** X9. [Query(name)] is built exactly when the validator accepts the
    name, otherwise the validator's exception comes out of the constructor;
    the Query built holds the one Table stage and renders, for every
    placeholder, as the selection of all columns of that table with no
    bound value. *)
Theorem Query_of_name :
  forall (name : string),
    Query_init (QName name)
    = (if validate_name name then Ok (mkQuery [STable name] [name])
       else Raise (InvalidName name)) /\
    forall ph,
      fst (Query_render ph (mkQuery [STable name] [name]))
      = Ok ("SELECT * FROM " ++ quoted name, []).
Proof.
  intros name. split.
  - unfold Query_init, bind, lift, Table_init, check_name.
    destruct (validate_name name); reflexivity.
  - intros ph. reflexivity.
Qed.

(** *** extend *)

Lemma extend_app (l1 : list Stage) : forall l2 q,
  Query_extend (l1 ++ l2) q = (_ <~ Query_extend l1 ;; Query_extend l2) q.
Proof.
  induction l1 as [|s l1 IH]; intros l2 q.
  - reflexivity.
  - cbn [app]. rewrite Query_extend_cons. unfold bind at 1.
    rewrite Query_extend_cons.
    destruct (Query_append s q) as [[[]|e] q1]; [|reflexivity].
    rewrite IH. reflexivity.
Qed.

(** X10. [extend] appends stage by stage and stops at the first append
    that raises: the stages before it stay appended, those after it are
    not looked at, and the exception comes out.  Extending by [l1 ++ l2]
    is extending by [l1] and then by [l2]. *)
Theorem extend_stops_at_first_error :
  forall (l1 l2 : list Stage) (s : Stage) (q q1 q2 : Query) (e : exn),
    Query_extend l1 q = (Ok tt, q1) ->
    Query_append s q1 = (Raise e, q2) ->
    Query_extend (l1 ++ s :: l2) q = (Raise e, q2) /\
    forall l, Query_extend (l1 ++ l) q = Query_extend l q1.
Proof.
  intros l1 l2 s q q1 q2 e H1 Hs.
  assert (Happ : forall l, Query_extend (l1 ++ l) q = Query_extend l q1).
  { intros l. rewrite extend_app. unfold bind. now rewrite H1. }
  split; [|exact Happ].
  rewrite Happ, Query_extend_cons, Hs. reflexivity.
Qed.

(** *** Joins *)

(** X11. Appending a Join to a Query whose last stage is neither a Table
    nor a Join, or that has no stage at all, raises
    InvalidQuery("Join must follow Table or Join") and leaves the Query as
    it was. *)
Theorem append_Join_needs_Table_or_Join :
  forall (j : Join) (q : Query),
    after_Table_or_Join (stages q) = false ->
    Query_append (SJoin j) q
    = (Raise (InvalidQuery "Join must follow Table or Join"), q).
Proof.
  intros j q H. unfold Query_append. unfold bind. rewrite last_stage_run.
  unfold after_Table_or_Join in H.
  destruct (last (map Some (stages q)) None) as [[]|];
    try discriminate; reflexivity.
Qed.

(** X12. A Join appended without a left-hand table takes it from the
    stage before it: the name of the Table, or the table name of the
    previous Join -- not that Join's alias; a left-hand table given to the
    constructor is kept.  Nothing else of the Join changes and it becomes
    the last stage. *)
Theorem append_Join_resolves :
  forall (pre : list Stage) (ts : list string) (j : Join),
    (forall name,
       Query_append (SJoin j) (mkQuery (pre ++ [STable name]) ts)
       = (Ok tt,
          mkQuery ((pre ++ [STable name])
                   ++ [SJoin (if truthy (j_prev_name j) then j
                              else with_prev_name j (Some name))]) ts)) /\
    (forall j0,
       Join_eq j0 j = false ->
       Query_append (SJoin j) (mkQuery (pre ++ [SJoin j0]) ts)
       = (Ok tt,
          mkQuery ((pre ++ [SJoin j0])
                   ++ [SJoin (if truthy (j_prev_name j) then j
                              else with_prev_name j (Some (j_name j0)))]) ts)).
Proof.
  intros pre ts j. split.
  - intros name. unfold Query_append. unfold bind at 1.
    rewrite last_stage_snoc. rewrite push_stage_run. cbn [stages tables].
    destruct (truthy (j_prev_name j)); reflexivity.
  - intros j0 Hne. unfold Query_append. unfold bind at 1.
    rewrite last_stage_snoc, Hne. rewrite push_stage_run. cbn [stages tables].
    destruct (truthy (j_prev_name j)); reflexivity.
Qed.

(** *** Aggregation, Count and CountUnique *)

(** X13. An Aggregation appended right after a Group, on a Query without a
    Projection, is stored with the Group's columns as its grouping columns,
    whatever grouping columns it had; after any other last stage it is
    stored as it is. *)
Theorem append_Aggregation_inherits :
  forall (pre : list Stage) (ts : list string) (a : Aggregation),
    existsb is_Projection pre = false ->
    (forall cols,
       Query_append (SAggregation a) (mkQuery (pre ++ [SGroup cols]) ts)
       = (Ok tt,
          mkQuery ((pre ++ [SGroup cols])
                   ++ [SAggregation (mkAggregation (a_aggs a) cols)]) ts)) /\
    (forall s,
       is_Projection s = false ->
       (forall cols, s <> SGroup cols) ->
       Query_append (SAggregation a) (mkQuery (pre ++ [s]) ts)
       = (Ok tt, mkQuery ((pre ++ [s]) ++ [SAggregation a]) ts)).
Proof.
  intros pre ts a Hpre. split.
  - intros cols. unfold Query_append. unfold bind at 1. unfold get_stages.
    cbn [stages]. rewrite existsb_app, Hpre. cbn [existsb is_Projection orb].
    unfold bind. rewrite last_stage_snoc. reflexivity.
  - intros s Hs Hg. unfold Query_append. unfold bind at 1. unfold get_stages.
    cbn [stages]. rewrite existsb_app, Hpre. cbn [existsb orb].
    rewrite Hs. cbn [orb].
    unfold bind. rewrite last_stage_snoc.
    destruct s; try reflexivity. now elim (Hg cols).
Qed.

(** X14. A CountUnique appended right after a Projection takes the
    Projection's place and its columns, whatever columns the CountUnique
    was constructed with; after any other last stage it is appended as it
    is. *)
Theorem append_CountUnique_absorbs :
  forall (pre : list Stage) (ts : list string) (own : option (list colspec)),
    (forall cols,
       Query_append (SCountUnique own) (mkQuery (pre ++ [SProjection cols]) ts)
       = (Ok tt, mkQuery (pre ++ [SCountUnique (Some cols)]) ts)) /\
    (forall l,
       after_Projection l = false ->
       Query_append (SCountUnique own) (mkQuery l ts)
       = (Ok tt, mkQuery (l ++ [SCountUnique own]) ts)).
Proof.
  intros pre ts own. split.
  - intros cols. unfold Query_append. unfold bind at 1.
    rewrite last_stage_snoc. unfold bind. rewrite pop_stage_snoc.
    reflexivity.
  - intros l H. unfold Query_append. unfold bind. rewrite last_stage_run.
    unfold after_Projection in H. cbn [stages].
    destruct (last (map Some l) None) as [[]|]; try discriminate; reflexivity.
Qed.

(** X15. Count appended right after Unique, with no Projection before the
    Unique, replaces the Unique by a CountUnique without columns, and the
    Query of a Table followed by that stage renders as the count of the
    rows of a subquery selecting the distinct rows of the table. *)
Theorem append_Count_after_Unique :
  forall (l : list Stage) (ts : list string),
    after_Projection l = false ->
    Query_append SCount (mkQuery (l ++ [SUnique]) ts)
    = (Ok tt, mkQuery (l ++ [SCountUnique None]) ts) /\
    forall ph t,
      fst (Query_render ph (mkQuery [STable t; SCountUnique None] [t]))
      = Ok ("SELECT COUNT(*) AS " ++ quoted "count"
              ++ " FROM (SELECT DISTINCT * FROM " ++ quoted t ++ ") AS tmp", []).
Proof.
  intros l ts H. split; [|reflexivity].
  unfold Query_append. unfold bind at 1. rewrite last_stage_snoc.
  unfold bind at 1. rewrite pop_stage_snoc.
  unfold bind at 1. rewrite last_stage_run. cbn [stages].
  unfold after_Projection in H.
  destruct (last (map Some l) None) as [[]|]; try discriminate; reflexivity.
Qed.

Lemma riter_app {A} (f : A -> result unit) l1 l2 :
  riter f (l1 ++ l2) = (_ <- riter f l1 ;; riter f l2).
Proof.
  induction l1 as [|x l1 IH]; [reflexivity|].
  cbn [app riter]. destruct (f x) as [[]|e]; cbn [rbind]; [exact IH|reflexivity].
Qed.

(** X16. Count appended after a Projection and a Unique folds the three
    into one CountUnique over the Projection's columns, for every
    Projection the constructor accepts: the second validation of its
    columns cannot fail. *)
Theorem append_Count_folds_Projection :
  forall (pre : list Stage) (ts : list string) (cols : list colspec)
         (st : Stage),
    Projection_init cols = Ok st ->
    st = SProjection cols /\
    Query_extend [st; SUnique; SCount] (mkQuery pre ts)
    = (Ok tt, mkQuery (pre ++ [SCountUnique (Some cols)]) ts).
Proof.
  intros pre ts cols st H. unfold Projection_init in H.
  destruct (riter _validate_column cols) as [[]|e] eqn:Hv; cbn [rbind] in H;
    [|discriminate].
  injection H as <-. split; [reflexivity|].
  rewrite Query_extend_cons, append_Projection_run.
  rewrite Query_extend_cons, append_Unique_run.
  cbn [stages tables]. rewrite <- app_assoc. cbn [app].
  now rewrite Query_extend_cons, (append_Count_folds _ _ _ Hv).
Qed.

End Built.

(* ------------------------------------------------------------------ *)
(** * Properties of the clause constructors *)

Section Constructors.

Context {V : Validate}.

(** *** Predicate *)

Lemma Predicate_store_fields lhs op rhs p :
  Predicate_store lhs op rhs = Ok p ->
  p_lhs p = lhs /\ p_op p = op /\ p_rhs p = rhs /\
  (is_null_str rhs = true -> mem op ["="; "!="; "<>"; "IS"; "IS NOT"] = true).
Proof.
  unfold Predicate_store. destruct (is_null_str rhs).
  - destruct (mem op ["="; "!="; "<>"; "IS"; "IS NOT"]); cbn [negb];
      intros H; [|discriminate].
    injection H as <-. cbn [p_lhs p_op p_rhs]. auto.
  - destruct rhs; intros H; injection H as <-; cbn [p_lhs p_op p_rhs];
      (repeat split; try reflexivity; discriminate).
Qed.

Lemma Predicate_list_property_out lhs op rhs lhs' op' rhs' :
  mem op COMP_OPS = true ->
  rhs <> PNone ->
  Predicate_list_property lhs op rhs = Ok (lhs', op', rhs') ->
  (mem op' COMP_OPS = true \/ op' = "NOT LIKE") /\ rhs' <> PNone.
Proof.
  intros Hop Hrhs. unfold Predicate_list_property.
  destruct (lhs_endswith lhs "[*]") as [[|]|e]; cbn [rbind];
    [| intros H; injection H as <- <- <-; auto | discriminate].
  destruct lhs as [l|c|c]; [|discriminate|discriminate].
  destruct rhs as [|r|z|vs|c|x|b]; try discriminate.
  destruct (negb (String.eqb (lower r) "null")).
  - destruct (String.eqb op "=");
      [intros H; injection H as <- <- <-; split; [now left|discriminate]|].
    destruct (String.eqb op "!=");
      intros H; injection H as <- <- <-; split;
      solve [now right | now left | discriminate].
  - intros H; injection H as <- <- <-. split; [now left|discriminate].
Qed.

(** X17. Every Predicate the constructor returns was given an operator of
    COMP_OPS, holds an operator of COMP_OPS or NOT LIKE, holds a right-hand
    side that is not None, and, when its left-hand side is a string, that
    string has passed [validate_path]. *)
Theorem Predicate_init_invariant :
  forall (lhs : colspec) (op : string) (rhs : pyval) (p : Predicate),
    Predicate_init lhs op rhs = Ok p ->
    mem op COMP_OPS = true /\
    (mem (p_op p) COMP_OPS = true \/ p_op p = "NOT LIKE") /\
    p_rhs p <> PNone /\
    (forall l, p_lhs p = CStr l -> validate_path l = true).
Proof.
  intros lhs op rhs p. unfold Predicate_init.
  destruct (mem op COMP_OPS) eqn:Hop; cbn [negb]; [|discriminate].
  set (rhs0 := match rhs with PNone => PStr "NULL" | _ => rhs end).
  assert (Hrhs0 : rhs0 <> PNone) by (subst rhs0; destruct rhs; discriminate).
  destruct (Predicate_list_property lhs op rhs0) as [[[lhs' op'] rhs']|e]
    eqn:Hlist; cbn [rbind]; [|discriminate].
  destruct (Predicate_list_property_out _ _ _ _ _ _ Hop Hrhs0 Hlist)
    as [Hop' Hrhs'].
  destruct (match lhs' with CStr l => check_path l | _ => Ok tt end)
    as [[]|e] eqn:Hpath; cbn [rbind]; [|discriminate].
  intros Hst. apply Predicate_store_fields in Hst.
  destruct Hst as [-> [-> [-> _]]].
  repeat split; try assumption.
  intros l ->. unfold check_path in Hpath.
  now destruct (validate_path l).
Qed.

Lemma null_render_ops op :
  mem op ["="; "!="; "<>"; "IS"; "IS NOT"] = true ->
  mem op ["!="; "<>"] = false ->
  String.eqb op "=" = false ->
  op = "IS" \/ op = "IS NOT".
Proof.
  unfold mem. cbn [existsb]. intros H Hne Heq.
  rewrite Heq in H. cbn [orb] in H.
  apply Bool.orb_false_iff in Hne. destruct Hne as [H1 Hne].
  apply Bool.orb_false_iff in Hne. destruct Hne as [H2 _].
  rewrite H1, H2 in H. cbn [orb] in H.
  apply Bool.orb_true_iff in H. destruct H as [H|H].
  - left. now apply String.eqb_eq.
  - apply Bool.orb_true_iff in H. destruct H as [H|H]; [|discriminate].
    right. now apply String.eqb_eq.
Qed.

(** X18. [render] of a Predicate the constructor returned raises in
    exactly two cases: the right-hand side is the null string and the
    operator is IS or IS NOT (InvalidComparisonOperator with that
    operator); or the operator is IN and the right-hand side, neither the
    null string nor a Column, is a value whose length cannot be taken --
    an integer, a float, a bool (TypeError from [len]). *)
Theorem constructed_Predicate_render_errors :
  forall (lhs : colspec) (op : string) (rhs : pyval) (p : Predicate)
         (ph : string) (e : exn),
    Predicate_init lhs op rhs = Ok p ->
    (Predicate_render ph p = Raise e <->
     (is_null_str (p_rhs p) = true /\ (p_op p = "IS" \/ p_op p = "IS NOT") /\
      e = InvalidComparisonOperator (p_op p)) \/
     (is_null_str (p_rhs p) = false /\ (forall c, p_rhs p <> PCol c) /\
      p_op p = "IN" /\ py_len (p_rhs p) = Raise TypeError /\ e = TypeError)).
Proof.
  intros lhs op rhs p ph e Hinit.
  unfold Predicate_init in Hinit.
  destruct (mem op COMP_OPS) eqn:Hop; cbn [negb] in Hinit; [|discriminate].
  destruct (Predicate_list_property lhs op _) as [[[lhs' op'] rhs']|e0];
    cbn [rbind] in Hinit; [|discriminate].
  destruct (match lhs' with CStr l => check_path l | _ => Ok tt end)
    as [[]|e0]; cbn [rbind] in Hinit; [|discriminate].
  apply Predicate_store_fields in Hinit.
  destruct Hinit as [Hl [Ho [Hrh Hnull]]].
  unfold Predicate_render. rewrite Hrh.
  destruct (is_null_str rhs') eqn:Hn.
  - split.
    + intros Hr.
      destruct (mem (p_op p) ["!="; "<>"]) eqn:H1; [discriminate|].
      destruct (String.eqb (p_op p) "=") eqn:H2; [discriminate|].
      injection Hr as <-. left. repeat split.
      apply null_render_ops; try assumption. rewrite Ho. now apply Hnull.
    + intros [[_ [Hcase ->]]|[Hf _]]; [|discriminate].
      destruct Hcase as [-> | ->]; reflexivity.
  - split.
    + intros Hr. right. split; [reflexivity|].
      destruct (String.eqb (p_op p) "IN") eqn:Hin.
      * apply String.eqb_eq in Hin.
        destruct rhs' as [|r|z|vs|c|x|b]; try discriminate;
          cbn [py_len rbind] in Hr; injection Hr as <-;
          (split; [discriminate|]); now repeat split.
      * destruct rhs'; discriminate.
    + intros [[Hf _]|[_ [Hcol [-> [Hlen ->]]]]]; [discriminate|].
      destruct rhs' as [|r|z|vs|c|x|b]; try discriminate; try reflexivity.
      now elim (Hcol c).
Qed.

Lemma last_char_app a : forall b,
  b <> EmptyString -> last_char (a ++ b) = last_char b.
Proof.
  induction a as [|x a IH]; intros b Hb; [reflexivity|].
  cbn [append last_char]. rewrite IH by exact Hb.
  destruct (a ++ b) eqn:E; [|reflexivity].
  destruct a; cbn in E; [now elim Hb | discriminate].
Qed.

Lemma last_char_drop s : forall k,
  drop k s <> EmptyString -> last_char (drop k s) = last_char s.
Proof.
  induction s as [|x s IH]; intros k H; [now destruct k|].
  destruct k as [|k]; [reflexivity|].
  cbn [drop] in H |- *. rewrite (IH k H).
  cbn [last_char]. destruct s; [|reflexivity].
  destruct k; now elim H.
Qed.

Lemma endswith_last_char s suf :
  suf <> EmptyString -> endswith s suf = true -> last_char s = last_char suf.
Proof.
  intros Hsuf H. unfold endswith in H.
  apply Bool.andb_true_iff in H. destruct H as [_ H].
  apply String.eqb_eq in H. rewrite <- H.
  symmetry. apply last_char_drop. now rewrite H.
Qed.

Lemma last_char_quoted s : last_char (quoted s) = last_char dq.
Proof.
  unfold quoted. rewrite last_char_app; [|destruct s; discriminate].
  now rewrite last_char_app.
Qed.

Lemma last_char_quote_name s :
  last_char (quote_name s) = last_char dq \/
  last_char (quote_name s) = last_char "*".
Proof.
  unfold quote_name. destruct (String.eqb_spec s "*") as [->|_].
  - now right.
  - left. apply last_char_quoted.
Qed.

Lemma quote_name_nonempty s : s <> EmptyString -> quote_name s <> EmptyString.
Proof.
  intros H. unfold quote_name.
  destruct (String.eqb s "*"); [exact H | discriminate].
Qed.

Lemma last_char_Column_str c :
  last_char (Column_str c) = last_char dq \/
  last_char (Column_str c) = last_char "*" \/
  Column_str c = EmptyString.
Proof.
  unfold Column_str. destruct (truthy (col_alias c)).
  - left. rewrite last_char_app; [|discriminate].
    rewrite last_char_app; [apply last_char_quoted|discriminate].
  - destruct (truthy (col_table c)).
    + destruct (col_name c) as [|x n] eqn:En.
      * left. rewrite last_char_app; [|discriminate].
        change (quote_name EmptyString) with (quoted EmptyString).
        rewrite last_char_app; [apply last_char_quoted|discriminate].
      * rewrite last_char_app; [|discriminate].
        rewrite last_char_app; [|apply quote_name_nonempty; discriminate].
        destruct (last_char_quote_name (String x n)); auto.
    + destruct (last_char_quote_name (col_name c)); auto.
Qed.

Lemma Column_not_marked c : endswith (Column_str c) "[*]" = false.
Proof.
  destruct (endswith (Column_str c) "[*]") eqn:E; [|reflexivity].
  apply endswith_last_char in E; [|discriminate].
  destruct (last_char_Column_str c) as [H|[H|H]].
  - rewrite H in E. discriminate.
  - rewrite H in E. discriminate.
  - rewrite H in E. discriminate.
Qed.

(** X19. A Predicate whose left-hand side is a [Column] is never treated
    as a list property, whatever the column's name: its text form cannot
    end with the list marker, so the constructor keeps column, operator
    and value as given and performs no path validation.  A left-hand side
    that is a [CoalescedColumn] makes the constructor raise AttributeError
    as soon as the operator is an allowed one. *)
Theorem object_lhs_Predicate :
  forall (op : string) (rhs : pyval),
    (forall c,
       Predicate_init (CCol c) op rhs
       = if negb (mem op COMP_OPS) then Raise (InvalidComparisonOperator op)
         else Predicate_store (CCol c) op
                (match rhs with PNone => PStr "NULL" | _ => rhs end)) /\
    (forall c,
       Predicate_init (CCoal c) op rhs
       = if negb (mem op COMP_OPS) then Raise (InvalidComparisonOperator op)
         else Raise AttributeError).
Proof.
  intros op rhs. split; intros c; unfold Predicate_init;
    destruct (negb (mem op COMP_OPS)); try reflexivity.
  unfold Predicate_list_property, lhs_endswith.
  cbn [colspec_str]. rewrite Column_not_marked. reflexivity.
Qed.

(** *** Column *)

(** X20. The validation every clause constructor applies to its columns
    accepts each [Column] the [Column] constructor returned and each
    [CoalescedColumn]: a Projection, a Group and a CountUnique over
    constructed Columns are always built. *)
Theorem clauses_of_constructed_Columns :
  forall (args : list (nat * string * option string * option string))
         (cs : list Column),
    rmap (fun a => let '(id, name, table, alias) := a in
                   Column_init id name table alias) args = Ok cs ->
    Projection_init (map CCol cs) = Ok (SProjection (map CCol cs)) /\
    Group_init (map CCol cs) = Ok (SGroup (map CCol cs)) /\
    CountUnique_init (Some (map CCol cs))
    = Ok (SCountUnique (Some (map CCol cs))).
Proof.
  intros args cs H.
  assert (Hv : riter _validate_column (map CCol cs) = Ok tt).
  { revert cs H. induction args as [|[[[id name] table] alias] args IH];
      intros cs H.
    - injection H as <-. reflexivity.
    - cbn [rmap] in H.
      destruct (Column_init id name table alias) as [c|e] eqn:Hc;
        cbn [rbind] in H; [|discriminate].
      destruct (rmap _ args) as [cs'|e]; cbn [rbind] in H; [|discriminate].
      injection H as <-. cbn [map riter].
      rewrite (IH cs' eq_refl).
      unfold Column_init in Hc.
      destruct (_validate_column_name name) as [[]|e] eqn:H1;
        cbn [rbind] in Hc; [|discriminate].
      destruct (if truthy table then check_name (fmt table) else Ok tt)
        as [[]|e] eqn:H2; cbn [rbind] in Hc; [|discriminate].
      destruct (if truthy alias then check_path (fmt alias) else Ok tt)
        as [[]|e] eqn:H3; cbn [rbind] in Hc; [|discriminate].
      injection Hc as <-.
      unfold _validate_column. cbn [col_name col_table col_alias].
      now rewrite H1, H2, H3. }
  unfold Projection_init, Group_init, CountUnique_init.
  now rewrite Hv.
Qed.

(** *** Join *)

(** X21. The Join constructor never validates its [lhs] argument: with a
    left-hand table it runs the checks it runs without one and stores the
    argument as it is. *)
Theorem Join_init_lhs_unchecked :
  forall (name : string) (left_col : option colspec) (op : option string)
         (right_col : option colspec) (preds : option (list Predicate))
         (how : string) (alias lhs : option string),
    Join_init name left_col op right_col preds how alias lhs
    = (j <- Join_init name left_col op right_col preds how alias None ;;
       Ok (with_prev_name j lhs)).
Proof.
  intros. unfold Join_init.
  destruct (check_name name) as [[]|e]; cbn [rbind]; [|reflexivity].
  destruct (if truthy_col left_col && truthy op && truthy_col right_col
            then _ else _) as [[]|e]; cbn [rbind]; [|reflexivity].
  destruct (if truthy alias then check_name (fmt alias) else Ok tt)
    as [[]|e]; cbn [rbind]; [|reflexivity].
  cbn [truthy].
  destruct (truthy lhs); cbn [rbind];
    destruct (negb (mem (upper how) JOIN_TYPES)); reflexivity.
Qed.

Lemma prefix_app_both a : forall p s,
  String.prefix p s = true -> String.prefix (a ++ p) (a ++ s) = true.
Proof.
  induction a as [|x a IH]; intros p s H; [exact H|].
  cbn [append]. apply prefix_cons. split; [reflexivity|now apply IH].
Qed.

(** X22. A Join the constructor returned has a validated table name and a
    kind that is, in upper case, one of JOIN_TYPES; when it renders, the
    text starts with that upper-cased kind, JOIN and the quoted table
    name. *)
Theorem constructed_Join_renders_kind :
  forall (name : string) (left_col : option colspec) (op : option string)
         (right_col : option colspec) (preds : option (list Predicate))
         (how : string) (alias lhs : option string) (j : Join)
         (ph text : string),
    Join_init name left_col op right_col preds how alias lhs = Ok j ->
    Join_render ph j = Ok text ->
    validate_name name = true /\
    mem (upper how) JOIN_TYPES = true /\
    startswith text (upper how ++ " JOIN " ++ quoted name) = true.
Proof.
  intros name left_col op right_col preds how alias lhs j ph text Hj Hr.
  unfold Join_init in Hj. unfold check_name at 1 in Hj.
  destruct (validate_name name) eqn:Hname; cbn [rbind] in Hj; [|discriminate].
  destruct (if truthy_col left_col && truthy op && truthy_col right_col
            then _ else _) as [[]|e]; cbn [rbind] in Hj; [|discriminate].
  destruct (if truthy alias then check_name (fmt alias) else Ok tt)
    as [[]|e]; cbn [rbind] in Hj; [|discriminate].
  destruct (if truthy lhs then check_name name else Ok tt)
    as [[]|e]; cbn [rbind] in Hj; [|discriminate].
  destruct (mem (upper how) JOIN_TYPES) eqn:Hhow; cbn [negb] in Hj;
    [|discriminate].
  injection Hj as <-. repeat split.
  unfold Join_render in Hr.
  cbn [j_name j_alias j_left_col j_prev_name j_op j_right_col j_how j_preds]
    in Hr.
  unfold startswith.
  destruct (truthy alias);
    match type of Hr with
    | (cond <- ?c ;; _) = _ =>
        destruct c as [cond|e]; cbn [rbind] in Hr; [|discriminate]
    end;
    injection Hr as <-;
    apply prefix_app_both; apply (prefix_app_both " JOIN ").
  - apply prefix_app_r, prefix_app.
  - apply prefix_app.
Qed.

(** *** Order *)

(** X23. [Order] is built exactly when every path of its argument passes
    [validate_path]; it then stores, in order, each tuple as given and each
    bare path with the ascending direction.  The direction of a tuple is
    not looked at. *)
Theorem Order_init_paths :
  forall (cols : list order_arg) (st : Stage),
    Order_init cols = Ok st <->
    forallb (fun a => validate_path (fst (order_pair a))) cols = true /\
    st = SOrder (map order_pair cols).
Proof.
  intros cols st. unfold Order_init.
  assert (H : Order_cols cols = Ok (map order_pair cols) /\
              forallb (fun a => validate_path (fst (order_pair a))) cols = true
              \/ (exists e, Order_cols cols = Raise e) /\
              forallb (fun a => validate_path (fst (order_pair a))) cols
              = false).
  { induction cols as [|a cols IH]; [now left|].
    cbn [forallb map].
    destruct a as [c d|c]; cbn [Order_cols order_pair fst];
      unfold check_path; destruct (validate_path c); cbn [rbind andb];
      try (right; split; [eexists; reflexivity|reflexivity]);
      (destruct IH as [[-> ->]|[[e ->] ->]]; cbn [rbind];
       [now left | right; split; [now exists e|reflexivity]]). }
  destruct H as [[-> ->]|[[e ->] ->]]; cbn [rbind].
  - split; [intros H; injection H as <-; now split | now intros [_ ->]].
  - split; [discriminate | now intros [H _]].
Qed.

(** *** Group *)

Lemma join_map_ext {A} (f g : A -> string) sep l :
  (forall x, In x l -> f x = g x) -> join sep (map f l) = join sep (map g l).
Proof.
  intros H. f_equal. apply map_ext_in. exact H.
Qed.

(** X24. A Group over columns none of which is the wildcard of a table
    renders as the Projection of the same columns without their aliases
    does. *)
Theorem Group_renders_unaliased :
  forall (cols : list colspec),
    existsb table_wildcard cols = false ->
    Group_render cols = Projection_render (map drop_alias cols).
Proof.
  intros cols H. unfold Group_render, Projection_render.
  rewrite !map_map. apply join_map_ext. intros col Hin.
  assert (Hw : table_wildcard col = false).
  { destruct (table_wildcard col) eqn:E; [|reflexivity].
    rewrite <- H. symmetry. apply existsb_exists. now exists col. }
  destruct col as [s|c|c]; try reflexivity.
  cbn [drop_alias _quote]. unfold Column_str, table_wildcard in *.
  cbn [col_table col_name col_alias truthy].
  destruct (col_table c) as [t|]; cbn [truthy fmt] in *; [|reflexivity].
  destruct t as [|x t]; [reflexivity|].
  cbn [String.eqb negb andb] in *.
  change (negb (String.eqb (String x t) EmptyString)) with true in *.
  cbn [andb] in Hw. cbn [_quote]. unfold quote_name at 1.
  replace (String.eqb _ "*") with false
    by (symmetry; apply String.eqb_neq; destruct t; discriminate).
  unfold quote_name. rewrite Hw. unfold quoted.
  now rewrite !append_assoc_s.
Qed.

(** *** Aggregation *)

Lemma Aggregation_aggs_inv aggs : forall r,
  Aggregation_aggs aggs = Ok r ->
  length r = length aggs /\
  Forall (fun agg =>
            mem (upper (fst (fst agg))) AGG_FUNCS = true /\
            forall col, snd (fst agg) = Some col ->
                        is_star (Some col) = false ->
                        _validate_column col = Ok tt) r.
Proof.
  induction aggs as [|agg aggs IH]; intros r H.
  - injection H as <-. split; constructor.
  - destruct agg as [f c a|f c|]; cbn [Aggregation_aggs] in H;
      [| |discriminate];
      (destruct (mem (upper f) AGG_FUNCS) eqn:Hf; cbn [negb] in H;
       [|discriminate];
       destruct c as [col0|];
       [destruct (is_star (Some col0)) eqn:Hstar;
        [|destruct (_validate_column col0) as [[]|e] eqn:Hc;
          [|discriminate]]|];
       cbn [rbind] in H;
       (destruct (Aggregation_aggs aggs) as [r'|e]; cbn [rbind] in H;
        [|discriminate]);
       injection H as <-; destruct (IH r' eq_refl) as [Hl HF];
       (split; [cbn [length]; now rewrite Hl|]);
       (constructor; [|exact HF]); cbn [fst snd];
       (split; [exact Hf|]); intros col Hcol Hs;
       try discriminate; injection Hcol as <-; congruence).
Qed.

(** X25. An Aggregation the constructor returned has no grouping columns,
    holds one entry per entry of the argument, each with a function whose
    upper case is in AGG_FUNCS and with a column that, unless it is None or
    the wildcard string, passed the column validation. *)
Theorem Aggregation_init_invariant :
  forall (aggs : list agg_arg) (a : Aggregation),
    Aggregation_init aggs = Ok a ->
    a_group_cols a = [] /\
    length (a_aggs a) = length aggs /\
    Forall (fun agg =>
              mem (upper (fst (fst agg))) AGG_FUNCS = true /\
              forall col, snd (fst agg) = Some col ->
                          is_star (Some col) = false ->
                          _validate_column col = Ok tt) (a_aggs a).
Proof.
  intros aggs a H. unfold Aggregation_init in H.
  destruct (Aggregation_aggs aggs) as [r|e] eqn:Hr; cbn [rbind] in H;
    [|discriminate].
  injection H as <-. cbn [a_group_cols a_aggs].
  split; [reflexivity|]. now apply Aggregation_aggs_inv.
Qed.

(** *** Unique *)

Lemma Unique_step prev text query values :
  exists rest,
    render_step SUnique prev text query values
    = ("SELECT DISTINCT " ++ rest, values).
Proof.
  cbn [render_step]. unfold sub_prefix.
  destruct (startswith query "SELECT ").
  - now exists (drop (String.length "SELECT ") query).
  - now exists ("* " ++ query).
Qed.

Lemma Unique_step_again prev text rest values :
  render_step SUnique prev text ("SELECT DISTINCT " ++ rest) values
  = ("SELECT DISTINCT DISTINCT " ++ rest, values).
Proof.
  cbn [render_step]. unfold sub_prefix.
  change (startswith ("SELECT DISTINCT " ++ rest) "SELECT ")
    with (String.prefix EmptyString ("DISTINCT " ++ rest)).
  rewrite prefix_nil. reflexivity.
Qed.

(** X26. Whenever [render] returns for a Query that ends in a Unique
    stage, the text starts with SELECT DISTINCT; a second Unique stage
    right after it is not recognised as redundant and makes [render]
    insert the keyword DISTINCT a second time, with the same bound
    values. *)
Theorem second_Unique_repeats_DISTINCT :
  forall (ph : string) (l : list Stage) (ts : list string) (text : string)
         (values : list pyval),
    fst (Query_render ph (mkQuery (l ++ [SUnique]) ts)) = Ok (text, values) ->
    exists rest,
      text = "SELECT DISTINCT " ++ rest /\
      fst (Query_render ph (mkQuery (l ++ [SUnique; SUnique]) ts))
      = Ok ("SELECT DISTINCT DISTINCT " ++ rest, values).
Proof.
  intros ph l ts text values H.
  rewrite Query_render_run in *. cbn [fst stages tables] in *.
  destruct ts as [|t ts]; [discriminate|].
  rewrite render_loop_app in *.
  destruct (render_loop ph l EmptyString [] None) as [[q0 v0]|e];
    cbn [rbind] in *; [|discriminate].
  cbn [render_loop Stage_render rbind] in *.
  destruct (Unique_step (prev_after l None) Unique_render q0 v0) as [rest Hq].
  rewrite Hq in *. rewrite Unique_step_again.
  cbn [rbind] in *. exists rest.
  change (render_finish ("SELECT DISTINCT " ++ rest))
    with (if negb (String.prefix EmptyString (" DISTINCT " ++ rest))
          then "SELECT * " ++ "SELECT DISTINCT " ++ rest
          else "SELECT DISTINCT " ++ rest) in H.
  change (render_finish ("SELECT DISTINCT DISTINCT " ++ rest))
    with (if negb (String.prefix EmptyString (" DISTINCT DISTINCT " ++ rest))
          then "SELECT * " ++ "SELECT DISTINCT DISTINCT " ++ rest
          else "SELECT DISTINCT DISTINCT " ++ rest).
  rewrite prefix_nil in *. cbn [negb] in *.
  injection H as <- <-. split; reflexivity.
Qed.

End Constructors.

(* ------------------------------------------------------------------ *)
(** * Further instances on concrete queries *)

Section FurtherInstances.

Import SpecValidate.

Lemma built_Query_tables_in_step_witness :
  Query_init (QName "a") = Ok (mkQuery [STable "a"] ["a"]) /\
  tables (snd (Query_extend [SUnique; SCount; STable "b"; SJoin join_c;
                             SJoin join_c]
                 (mkQuery [STable "a"] ["a"])))
  = table_names
      (stages (snd (Query_extend [SUnique; SCount; STable "b"; SJoin join_c;
                                  SJoin join_c]
                      (mkQuery [STable "a"] ["a"])))).
Proof.
  split; [reflexivity|].
  apply (built_Query_tables_in_step (QName "a")
           [SUnique; SCount; STable "b"; SJoin join_c; SJoin join_c]
           (mkQuery [STable "a"] ["a"])).
  reflexivity.
Defined.

Lemma render_error_origin_witness :
  fst (Query_render "?" null_filtered) = Raise (InvalidComparisonOperator "IS") /\
  ((tables null_filtered = [] /\
    InvalidComparisonOperator "IS" = InvalidQuery "no table") \/
   (tables null_filtered <> [] /\
    exists s, In s (stages null_filtered) /\ has_predicates s = true /\
              Stage_render "?" s = Raise (InvalidComparisonOperator "IS") /\
              (InvalidComparisonOperator "IS" = TypeError \/
               exists op,
                 InvalidComparisonOperator "IS" = InvalidComparisonOperator op))).
Proof.
  split; [reflexivity|].
  apply (render_error_origin "?" null_filtered (InvalidComparisonOperator "IS")).
  reflexivity.
Defined.

Lemma render_failure_ignores_placeholder_witness :
  fst (Query_render "?" null_filtered) = Raise (InvalidComparisonOperator "IS") /\
  fst (Query_render "%s" null_filtered) = Raise (InvalidComparisonOperator "IS").
Proof.
  split; [reflexivity|].
  apply (render_failure_ignores_placeholder "?" "%s" null_filtered
           (InvalidComparisonOperator "IS")).
  reflexivity.
Defined.

Lemma render_output_shape_witness :
  fst (Query_render "%s" people_query)
  = Ok ("SELECT " ++ quoted "name" ++ " FROM " ++ quoted "people"
          ++ " WHERE ((" ++ quoted "age" ++ " > %s) OR ("
          ++ quoted "name" ++ " IN (%s, %s))) LIMIT 5",
        [PInt 30; PStr "a"; PStr "b"]) /\
  startswith ("SELECT " ++ quoted "name" ++ " FROM " ++ quoted "people"
                ++ " WHERE ((" ++ quoted "age" ++ " > %s) OR ("
                ++ quoted "name" ++ " IN (%s, %s))) LIMIT 5") "SELECT" = true /\
  [PInt 30; PStr "a"; PStr "b"] = gathered (stages people_query).
Proof.
  split; [reflexivity|].
  apply (render_output_shape "%s" people_query
           ("SELECT " ++ quoted "name" ++ " FROM " ++ quoted "people"
              ++ " WHERE ((" ++ quoted "age" ++ " > %s) OR ("
              ++ quoted "name" ++ " IN (%s, %s))) LIMIT 5")
           [PInt 30; PStr "a"; PStr "b"]).
  reflexivity.
Defined.

Lemma consecutive_Filters_merge_witness :
  [x_is_one] <> [] /\ [y_below_two] <> [] /\
  fst (Query_render "?"
         (mkQuery ([STable "a"] ++ SFilter (Filter_init [x_is_one] Filter_AND)
                      :: SFilter (Filter_init [y_below_two] Filter_AND)
                      :: [SLimit 5]) ["a"]))
  = fst (Query_render "?"
           (mkQuery ([STable "a"]
                     ++ SFilter (Filter_init ([x_is_one] ++ [y_below_two])
                                   Filter_AND)
                        :: [SLimit 5]) ["a"])).
Proof.
  split; [discriminate|]. split; [discriminate|].
  apply (consecutive_Filters_merge "?" [STable "a"] [SLimit 5]
           [x_is_one] [y_below_two] ["a"]); discriminate.
Defined.

Lemma render_keeps_last_FROM_witness :
  existsb is_Table [SProjection [CStr "x"]; SUnique; SCount] = false /\
  fst (Query_render "?"
         (mkQuery ([STable "a"] ++ STable "b"
                      :: [SProjection [CStr "x"]; SUnique; SCount])
                  ["a"; "b"]))
  = Ok ("SELECT COUNT(*) AS " ++ quoted "count" ++ " FROM (SELECT DISTINCT "
          ++ quoted "x" ++ " FROM " ++ quoted "b" ++ ") AS tmp", []) /\
  contains ("SELECT COUNT(*) AS " ++ quoted "count" ++ " FROM (SELECT DISTINCT "
              ++ quoted "x" ++ " FROM " ++ quoted "b" ++ ") AS tmp")
           ("FROM " ++ quoted "b") = true.
Proof.
  split; [reflexivity|]. split; [reflexivity|].
  apply (render_keeps_last_FROM "?" [STable "a"]
           [SProjection [CStr "x"]; SUnique; SCount] "b" ["a"; "b"]
           ("SELECT COUNT(*) AS " ++ quoted "count" ++ " FROM (SELECT DISTINCT "
              ++ quoted "x" ++ " FROM " ++ quoted "b" ++ ") AS tmp") []);
    reflexivity.
Defined.

Lemma no_table_error_iff_witness :
  Query_init (QStages [SUnique; SLimit 3]) = Ok (mkQuery [SUnique; SLimit 3] []) /\
  (existsb is_Table
     (stages (snd (Query_extend [SOffset 1] (mkQuery [SUnique; SLimit 3] []))))
   = false <->
   fst (Query_render "?"
          (snd (Query_extend [SOffset 1] (mkQuery [SUnique; SLimit 3] []))))
   = Raise (InvalidQuery "no table")).
Proof.
  split; [reflexivity|].
  apply (no_table_error_iff (QStages [SUnique; SLimit 3]) [SOffset 1]
           (mkQuery [SUnique; SLimit 3] []) "?").
  reflexivity.
Defined.

Lemma extend_stops_at_first_error_witness :
  Query_extend [SUnique] (mkQuery [STable "a"] ["a"])
  = (Ok tt, mkQuery [STable "a"; SUnique] ["a"]) /\
  Query_append (SJoin join_c) (mkQuery [STable "a"; SUnique] ["a"])
  = (Raise (InvalidQuery "Join must follow Table or Join"),
     mkQuery [STable "a"; SUnique] ["a"]) /\
  Query_extend ([SUnique] ++ SJoin join_c :: [SLimit 5])
               (mkQuery [STable "a"] ["a"])
  = (Raise (InvalidQuery "Join must follow Table or Join"),
     mkQuery [STable "a"; SUnique] ["a"]) /\
  forall l, Query_extend ([SUnique] ++ l) (mkQuery [STable "a"] ["a"])
            = Query_extend l (mkQuery [STable "a"; SUnique] ["a"]).
Proof.
  split; [reflexivity|]. split; [reflexivity|].
  apply (extend_stops_at_first_error [SUnique] [SLimit 5] (SJoin join_c)
           (mkQuery [STable "a"] ["a"])
           (mkQuery [STable "a"; SUnique] ["a"])
           (mkQuery [STable "a"; SUnique] ["a"])
           (InvalidQuery "Join must follow Table or Join"));
    reflexivity.
Defined.

Lemma append_Join_needs_Table_or_Join_witness :
  after_Table_or_Join (stages (mkQuery [STable "a"; SLimit 5] ["a"])) = false /\
  Query_append (SJoin join_c) (mkQuery [STable "a"; SLimit 5] ["a"])
  = (Raise (InvalidQuery "Join must follow Table or Join"),
     mkQuery [STable "a"; SLimit 5] ["a"]).
Proof.
  split; [reflexivity|].
  apply (append_Join_needs_Table_or_Join join_c
           (mkQuery [STable "a"; SLimit 5] ["a"])).
  reflexivity.
Defined.

(** The second Join takes the table name [b] of the first, not its alias. *)
Lemma append_Join_resolves_witness :
  Join_eq (mkJoin (Some "a") "b" (Some (CStr "id")) (Some "=")
                  (Some (CStr "id")) "INNER" (Some "bb") [] None)
          join_c = false /\
  Query_append (SJoin join_c)
    (mkQuery ([STable "a"]
              ++ [SJoin (mkJoin (Some "a") "b" (Some (CStr "id")) (Some "=")
                                (Some (CStr "id")) "INNER" (Some "bb") []
                                None)]) ["a"])
  = (Ok tt,
     mkQuery (([STable "a"]
               ++ [SJoin (mkJoin (Some "a") "b" (Some (CStr "id")) (Some "=")
                                 (Some (CStr "id")) "INNER" (Some "bb") []
                                 None)])
              ++ [SJoin (if truthy (j_prev_name join_c) then join_c
                         else with_prev_name join_c (Some "b"))]) ["a"]).
Proof.
  split; [reflexivity|].
  apply (proj2 (append_Join_resolves [STable "a"] ["a"] join_c)
           (mkJoin (Some "a") "b" (Some (CStr "id")) (Some "=")
                   (Some (CStr "id")) "INNER" (Some "bb") [] None)).
  reflexivity.
Defined.

Lemma append_Aggregation_inherits_witness :
  existsb is_Projection [STable "events"] = false /\
  Query_append (SAggregation count_n)
    (mkQuery ([STable "events"] ++ [SGroup [CStr "type"]]) ["events"])
  = (Ok tt,
     mkQuery (([STable "events"] ++ [SGroup [CStr "type"]])
              ++ [SAggregation
                    (mkAggregation (a_aggs count_n) [CStr "type"])])
             ["events"]).
Proof.
  split; [reflexivity|].
  apply (proj1 (append_Aggregation_inherits [STable "events"] ["events"]
                  count_n eq_refl) [CStr "type"]).
Defined.

Lemma append_CountUnique_absorbs_witness :
  after_Projection [STable "a"; SUnique] = false /\
  Query_append (SCountUnique (Some [CStr "x"]))
               (mkQuery [STable "a"; SUnique] ["a"])
  = (Ok tt,
     mkQuery ([STable "a"; SUnique] ++ [SCountUnique (Some [CStr "x"])]) ["a"]).
Proof.
  split; [reflexivity|].
  apply (proj2 (append_CountUnique_absorbs [] ["a"] (Some [CStr "x"]))
           [STable "a"; SUnique]).
  reflexivity.
Defined.

Lemma append_Count_after_Unique_witness :
  after_Projection [STable "a"] = false /\
  Query_append SCount (mkQuery ([STable "a"] ++ [SUnique]) ["a"])
  = (Ok tt, mkQuery ([STable "a"] ++ [SCountUnique None]) ["a"]).
Proof.
  split; [reflexivity|].
  apply (proj1 (append_Count_after_Unique [STable "a"] ["a"] eq_refl)).
Defined.

Lemma append_Count_folds_Projection_witness :
  Projection_init [CStr "a"; CStr "b"] = Ok (SProjection [CStr "a"; CStr "b"]) /\
  Query_extend [SProjection [CStr "a"; CStr "b"]; SUnique; SCount]
               (mkQuery [STable "t"] ["t"])
  = (Ok tt,
     mkQuery ([STable "t"] ++ [SCountUnique (Some [CStr "a"; CStr "b"])])
             ["t"]).
Proof.
  split; [reflexivity|].
  destruct (append_Count_folds_Projection [STable "t"] ["t"]
              [CStr "a"; CStr "b"] (SProjection [CStr "a"; CStr "b"]))
    as [_ H]; [reflexivity | exact H].
Defined.

Lemma Predicate_init_invariant_witness :
  Predicate_init (CStr "labels[*]") "!=" (PStr "x")
  = Ok (mkPredicate (CStr "labels") "NOT LIKE" (PStr "%x%") [PStr "%x%"]) /\
  mem "!=" COMP_OPS = true /\
  (mem "NOT LIKE" COMP_OPS = true \/ "NOT LIKE" = "NOT LIKE") /\
  PStr "%x%" <> PNone /\
  (forall l, CStr "labels" = CStr l -> validate_path l = true).
Proof.
  split; [reflexivity|].
  apply (Predicate_init_invariant (CStr "labels[*]") "!=" (PStr "x")
           (mkPredicate (CStr "labels") "NOT LIKE" (PStr "%x%") [PStr "%x%"])).
  reflexivity.
Defined.

(** [Predicate("x", "IN", 1.5)] is built and raises TypeError when
    rendered. *)
Lemma constructed_Predicate_render_errors_witness :
  Predicate_init (CStr "x") "IN" (PFloat (S754_finite false 3 (-1)))
  = Ok (mkPredicate (CStr "x") "IN" (PFloat (S754_finite false 3 (-1)))
                    [PFloat (S754_finite false 3 (-1))]) /\
  Predicate_render "?"
    (mkPredicate (CStr "x") "IN" (PFloat (S754_finite false 3 (-1)))
                 [PFloat (S754_finite false 3 (-1))])
  = Raise TypeError.
Proof.
  split; [reflexivity|].
  apply (constructed_Predicate_render_errors (CStr "x") "IN"
           (PFloat (S754_finite false 3 (-1)))
           (mkPredicate (CStr "x") "IN" (PFloat (S754_finite false 3 (-1)))
                        [PFloat (S754_finite false 3 (-1))])
           "?" TypeError); [reflexivity|].
  right. repeat split; discriminate.
Defined.

Lemma clauses_of_constructed_Columns_witness :
  rmap (fun a => let '(id, name, table, alias) := a in
                 Column_init id name table alias)
       [(0, "name", Some "t", Some "n"); (1, "*", None, None)]
  = Ok [mkColumn 0 "name" (Some "t") (Some "n"); mkColumn 1 "*" None None] /\
  Projection_init
    (map CCol [mkColumn 0 "name" (Some "t") (Some "n");
               mkColumn 1 "*" None None])
  = Ok (SProjection
          (map CCol [mkColumn 0 "name" (Some "t") (Some "n");
                     mkColumn 1 "*" None None])).
Proof.
  split; [reflexivity|].
  destruct (clauses_of_constructed_Columns
              [(0, "name", Some "t", Some "n"); (1, "*", None, None)]
              [mkColumn 0 "name" (Some "t") (Some "n");
               mkColumn 1 "*" None None])
    as [H _]; [reflexivity | exact H].
Defined.

Lemma constructed_Join_renders_kind_witness :
  Join_init "b" (Some (CStr "id")) (Some "=") (Some (CStr "id")) None
            "left outer" (Some "bb") (Some "a")
  = Ok (mkJoin (Some "a") "b" (Some (CStr "id")) (Some "=") (Some (CStr "id"))
               "left outer" (Some "bb") [] None) /\
  Join_render "?"
    (mkJoin (Some "a") "b" (Some (CStr "id")) (Some "=") (Some (CStr "id"))
            "left outer" (Some "bb") [] None)
  = Ok ("LEFT OUTER JOIN " ++ quoted "b" ++ " AS " ++ quoted "bb" ++ " ON "
          ++ quoted "a" ++ "." ++ quoted "id" ++ " = " ++ quoted "bb" ++ "."
          ++ quoted "id") /\
  validate_name "b" = true /\
  mem (upper "left outer") JOIN_TYPES = true /\
  startswith ("LEFT OUTER JOIN " ++ quoted "b" ++ " AS " ++ quoted "bb" ++ " ON "
                ++ quoted "a" ++ "." ++ quoted "id" ++ " = " ++ quoted "bb"
                ++ "." ++ quoted "id")
             (upper "left outer" ++ " JOIN " ++ quoted "b") = true.
Proof.
  split; [reflexivity|]. split; [reflexivity|].
  apply (constructed_Join_renders_kind "b" (Some (CStr "id")) (Some "=")
           (Some (CStr "id")) None "left outer" (Some "bb") (Some "a")
           (mkJoin (Some "a") "b" (Some (CStr "id")) (Some "=")
                   (Some (CStr "id")) "left outer" (Some "bb") [] None)
           "?"
           ("LEFT OUTER JOIN " ++ quoted "b" ++ " AS " ++ quoted "bb" ++ " ON "
              ++ quoted "a" ++ "." ++ quoted "id" ++ " = " ++ quoted "bb"
              ++ "." ++ quoted "id"));
    reflexivity.
Defined.

Lemma Group_renders_unaliased_witness :
  existsb table_wildcard
    [CStr "a"; CCol (mkColumn 0 "b" (Some "t") (Some "x")); CStr "*"] = false /\
  Group_render
    [CStr "a"; CCol (mkColumn 0 "b" (Some "t") (Some "x")); CStr "*"]
  = Projection_render
      (map drop_alias
         [CStr "a"; CCol (mkColumn 0 "b" (Some "t") (Some "x")); CStr "*"]).
Proof.
  split; [reflexivity|].
  apply (Group_renders_unaliased
           [CStr "a"; CCol (mkColumn 0 "b" (Some "t") (Some "x")); CStr "*"]).
  reflexivity.
Defined.

Lemma Aggregation_init_invariant_witness :
  Aggregation_init [Agg3 "count" (Some (CStr "*")) (Some "n");
                    Agg2 "nunique" (Some (CStr "user"))]
  = Ok (mkAggregation [("count", Some (CStr "*"), Some "n");
                       ("nunique", Some (CStr "user"), None)] []) /\
  length (a_aggs (mkAggregation [("count", Some (CStr "*"), Some "n");
                                 ("nunique", Some (CStr "user"), None)] []))
  = length [Agg3 "count" (Some (CStr "*")) (Some "n");
            Agg2 "nunique" (Some (CStr "user"))].
Proof.
  split; [reflexivity|].
  destruct (Aggregation_init_invariant
              [Agg3 "count" (Some (CStr "*")) (Some "n");
               Agg2 "nunique" (Some (CStr "user"))]
              (mkAggregation [("count", Some (CStr "*"), Some "n");
                              ("nunique", Some (CStr "user"), None)] []))
    as [_ [H _]]; [reflexivity | exact H].
Defined.

Lemma second_Unique_repeats_DISTINCT_witness :
  fst (Query_render "?"
         (mkQuery ([STable "a"; SProjection [CStr "x"]] ++ [SUnique]) ["a"]))
  = Ok ("SELECT DISTINCT " ++ quoted "x" ++ " FROM " ++ quoted "a", []) /\
  exists rest,
    "SELECT DISTINCT " ++ quoted "x" ++ " FROM " ++ quoted "a"
    = "SELECT DISTINCT " ++ rest /\
    fst (Query_render "?"
           (mkQuery ([STable "a"; SProjection [CStr "x"]] ++ [SUnique; SUnique])
                    ["a"]))
    = Ok ("SELECT DISTINCT DISTINCT " ++ rest, []).
Proof.
  split; [reflexivity|].
  apply (second_Unique_repeats_DISTINCT "?" [STable "a"; SProjection [CStr "x"]]
           ["a"] ("SELECT DISTINCT " ++ quoted "x" ++ " FROM " ++ quoted "a") []).
  reflexivity.
Defined.

End FurtherInstances.
